(** * A shallow embedding of the maze painter (level.js, sketch.js)

    The development follows the two source files.  [Js] holds the small part
    of JavaScript the program relies on: numbers on the integer fragment
    (with the non-finite values that a division by zero or a remainder by
    zero produces), array reads and writes by index, abrupt completion with
    a TypeError, and template-literal keys.  Row arrays live in a store, so
    that two grids can share a row; a grid is the list of its row
    references.  Then come class [Level] and the functions of the sketch. *)

From stdpp Require Import gmap strings list pretty.
From Stdlib Require Import ZArith Lia Ascii.

Local Open Scope Z_scope.
#[local] Set Warnings "-clear-no-such-hyp".

(* ===================================================================== *)
(** * JavaScript primitives                                               *)
(* ===================================================================== *)

Module Js.

(** Numbers.  Pixel coordinates, tile sizes, indices and lengths are
    integers small enough for double arithmetic on them to be exact; the
    other numbers the program can produce are the non-finite ones. *)
Inductive number := Int (z : Z) | PosInf | NegInf | NaN.

Definition of_nat (n : nat) : number := Int (Z.of_nat n).

(** [a < b]; every comparison with NaN is false. *)
Definition num_lt (a b : number) : bool :=
  match a, b with
  | Int x, Int y => bool_decide (x < y)
  | NegInf, Int _ | NegInf, PosInf | Int _, PosInf => true
  | _, _ => false
  end.

(** [a >= b]. *)
Definition num_ge (a b : number) : bool :=
  match a, b with
  | NaN, _ | _, NaN => false
  | _, _ => negb (num_lt a b)
  end.

(** [a + b]. *)
Definition num_add (a b : number) : number :=
  match a, b with
  | Int x, Int y => Int (x + y)
  | NaN, _ | _, NaN => NaN
  | PosInf, NegInf | NegInf, PosInf => NaN
  | PosInf, _ | _, PosInf => PosInf
  | NegInf, _ | _, NegInf => NegInf
  end.

(** [a % b]: the remainder takes the sign of the dividend. *)
Definition num_rem (a b : number) : number :=
  match a, b with
  | Int x, Int y => if decide (y = 0) then NaN else Int (Z.rem x y)
  | Int x, (PosInf | NegInf) => Int x
  | _, _ => NaN
  end.

(** [Math.floor(a / b)] for integers [a] and [b]. *)
Definition floor_div (a b : Z) : number :=
  if decide (b = 0) then
    if decide (0 < a) then PosInf else if decide (a < 0) then NegInf else NaN
  else Int (a `div` b).

(** [String(n)], as a template literal renders a number. *)
Definition num_to_string (n : number) : string :=
  match n with
  | Int z => pretty z
  | PosInf => "Infinity"
  | NegInf => "-Infinity"
  | NaN => "NaN"
  end.

(** What a grid cell can hold: an integer tile code, or nothing
    ([undefined], also the result of reading past the end of an array). *)
Inductive value := Undefined | Num (z : Z).

Global Instance value_eq_dec : EqDecision value.
Proof. solve_decision. Defined.

(** [v === w]. *)
Definition strict_eq (v w : value) : bool := bool_decide (v = w).

(** Abrupt completion. *)
Inductive exn := TypeError.

Inductive completion (A : Type) := Normal (a : A) | Throw (e : exn).
Global Arguments Normal {A} a.
Global Arguments Throw {A} e.

Global Instance completion_ret : MRet completion := @Normal.
Global Instance completion_bind : MBind completion := λ A B f m,
  match m with Normal a => f a | Throw e => Throw e end.

(** [a && k], where only [k] can throw. *)
Definition and_then (a : bool) (k : completion bool) : completion bool :=
  if a then k else Normal false.

(** [arr[i]]: [None] stands for [undefined]. *)
Definition index {A} (arr : list A) (i : number) : option A :=
  match i with
  | Int z => if decide (0 <= z) then arr !! Z.to_nat z else None
  | _ => None
  end.

(** [arr[i] = v] at an index that is a loop counter: in range the element
    is replaced, past the end the array grows and the gap reads as
    [undefined]. *)
Definition array_set (arr : list value) (i : nat) (v : value) : list value :=
  if decide (i < length arr)%nat then <[i := v]> arr
  else arr ++ replicate (i - length arr) Undefined ++ [v].

(** The store of row arrays.  A reference is never dangling in JavaScript;
    [deref] of a location that was never allocated is not reached from a
    state the program builds. *)
Abbreviation loc := positive.
Abbreviation heap := (gmap loc (list value)).

Definition deref (h : heap) (l : loc) : list value := default [] (h !! l).

(** A new array object. *)
Definition alloc (h : heap) (arr : list value) : heap * loc :=
  let l := fresh (dom h) in (<[l := arr]> h, l).

End Js.
Import Js.

(* ===================================================================== *)
(** * level.js                                                           *)
(* ===================================================================== *)

(** The object [{ r, c }] that [findStart] returns; both fields are loop
    counters. *)
Record Cell := mkCell { pos_r : nat; pos_c : nat }.

Global Instance Cell_eq_dec : EqDecision Cell.
Proof. solve_decision. Defined.

(** The fields of a Level.  [start] is [None] for null.  [clickedTiles]
    is a Set of strings; the class only calls [has], [add] and [delete] on
    it and never iterates it, so that its insertion order is not observed
    and a finite set stands for it. *)
Record Level := mkLevel {
  grid : list loc;
  ts : Z;
  start : option Cell;
  clickedTiles : gset string
}.

(** A [for] loop that counts from [i] over [n] iterations and whose body
    may return from the enclosing function ([Some]) or throw.  The loops
    of the class compare their counter with [rows()] or [cols()] before
    every iteration; neither changes while the loop runs, so the bound is
    read once, where the first comparison takes place. *)
Fixpoint scan {A} (n i : nat) (body : nat → completion (option A))
    : completion (option A) :=
  match n with
  | O => Normal None
  | S n' =>
      x ← body i;
      match x with
      | Some a => Normal (Some a)
      | None => scan n' (S i) body
      end
  end.

Section level_methods.
Context (h : heap) (this : Level).

Definition rows : nat := length (grid this).

Definition cols : completion nat :=
  match index (grid this) (Int 0) with
  | Some l => Normal (length (deref h l))
  | None => Throw TypeError
  end.

Definition pixelWidth : completion Z :=
  n ← cols; Normal (Z.of_nat n * ts this).

Definition pixelHeight : completion Z :=
  Normal (Z.of_nat rows * ts this).

Definition inBounds (r c : number) : completion bool :=
  and_then (num_ge r (Int 0))
    (and_then (num_ge c (Int 0))
       (and_then (num_lt r (of_nat rows))
          (n ← cols; Normal (num_lt c (of_nat n))))).

(** The expression [this.grid[r][c]]. *)
Definition grid_get (r c : number) : completion value :=
  match index (grid this) r with
  | Some l => Normal (default Undefined (index (deref h l) c))
  | None => Throw TypeError
  end.

Definition tileAt (r c : number) : completion value := grid_get r c.

Definition isWall (r c : number) : completion bool :=
  v ← tileAt r c; Normal (strict_eq v (Num 1)).

Definition isGoal (r c : number) : completion bool :=
  v ← tileAt r c; Normal (strict_eq v (Num 3)).

(** The outer loop never reads [cols()] on a grid without rows, the inner
    loop reads it once a row is entered. *)
Definition findStart : completion (option Cell) :=
  scan rows 0%nat (λ r,
    n ← cols;
    scan n 0%nat (λ c,
      v ← grid_get (of_nat r) (of_nat c);
      Normal (if strict_eq v (Num 2) then Some (mkCell r c) else None))).

(** The key [`${r},${c}`]. *)
Definition key (r c : number) : string :=
  num_to_string r +:+ "," +:+ num_to_string c.

(** The result is the Level after the click; the store is only read. *)
Definition handleClick (mouseX mouseY : Z) : completion Level :=
  let c := floor_div mouseX (ts this) in
  let r := floor_div mouseY (ts this) in
  b ← inBounds r c;
  if b : bool then
    let k := key r c in
    if bool_decide (k ∈ clickedTiles this) then
      Normal (mkLevel (grid this) (ts this) (start this)
                (clickedTiles this ∖ {[k]}))
    else
      Normal (mkLevel (grid this) (ts this) (start this)
                (clickedTiles this ∪ {[k]}))
  else Normal this.
End level_methods.

(** The assignment [grid[r][c] = v]. *)
Definition grid_set (h : heap) (g : list loc) (r c : nat) (v : value)
    : completion heap :=
  match g !! r with
  | Some l => Normal (<[l := array_set (deref h l) c v]> h)
  | None => Throw TypeError
  end.

(** [new Level(grid, tileSize)]: the start tile is looked up, then
    normalised to floor in place; the row written is the caller's array. *)
Definition new_Level (grid : list loc) (tileSize : Z) (h : heap)
    : completion (heap * Level) :=
  let this := mkLevel grid tileSize None ∅ in
  s ← findStart h this;
  h' ← match s with
       | Some p => grid_set h grid (pos_r p) (pos_c p) (Num 0)
       | None => Normal h
       end;
  Normal (h', mkLevel grid tileSize s ∅).

(* ===================================================================== *)
(** * sketch.js                                                          *)
(* ===================================================================== *)

Definition TS : Z := 32.

(** [grid.map((row) => row.slice())]: a new outer array whose rows are new
    arrays with the elements of the old ones. *)
Fixpoint copyGrid (grid : list loc) (h : heap) : heap * list loc :=
  match grid with
  | [] => (h, [])
  | row :: rest =>
      let '(h1, row') := alloc h (deref h row) in
      let '(h2, rest') := copyGrid rest h1 in
      (h2, row' :: rest')
  end.

(** [levelsData.levels.map((grid) => new Level(copyGrid(grid), TS))]. *)
Fixpoint build_levels (data : list (list loc)) (h : heap)
    : completion (heap * list Level) :=
  match data with
  | [] => Normal (h, [])
  | grid :: rest =>
      let '(h1, copy) := copyGrid grid h in
      '(h2, level) ← new_Level copy TS h1;
      '(h3, others) ← build_levels rest h2;
      Normal (h3, level :: others)
  end.

Section sketch.
(** Player.js is not part of the sources: the class is a parameter. *)
Context {Player : Type}.
Context (new_Player : Z → Player) (setCell : Player → Z → Z → Player).

(** The globals of the sketch, with the store of row arrays and the
    canvas size last asked of p5. *)
Record Sketch := mkSketch {
  store : heap;
  levelsData : list (list loc);
  levels : list Level;
  li : number;
  player : option Player;
  canvas : option (Z * Z)
}.

Definition set_li (idx : number) (s : Sketch) : Sketch :=
  mkSketch (store s) (levelsData s) (levels s) idx (player s) (canvas s).
Definition set_player (p : Player) (s : Sketch) : Sketch :=
  mkSketch (store s) (levelsData s) (levels s) (li s) (Some p) (canvas s).
Definition set_canvas (w hgt : Z) (s : Sketch) : Sketch :=
  mkSketch (store s) (levelsData s) (levels s) (li s) (player s)
    (Some (w, hgt)).

(** The functions of the sketch return the globals they leave behind
    together with their completion: an assignment made before a throw
    stays. *)
Definition loadLevel (idx : number) (s : Sketch) : Sketch * completion unit :=
  let s := set_li idx s in
  match index (levels s) (li s) with
  | None => (s, Throw TypeError)
  | Some level =>
      match player s with
      | None => (s, Throw TypeError)
      | Some p =>
          let s :=
            match start level with
            | Some st =>
                set_player
                  (setCell p (Z.of_nat (pos_r st)) (Z.of_nat (pos_c st))) s
            | None => set_player (setCell p 1 1) s
            end in
          match pixelWidth (store s) level with
          | Throw e => (s, Throw e)
          | Normal w =>
              match pixelHeight level with
              | Throw e => (s, Throw e)
              | Normal hgt => (set_canvas w hgt s, Normal ())
              end
          end
      end
  end.

Definition nextLevel (s : Sketch) : Sketch * completion unit :=
  let next := num_rem (num_add (li s) (Int 1)) (of_nat (length (levels s))) in
  loadLevel next s.

Definition set_levels (h : heap) (ls : list Level) (s : Sketch) : Sketch :=
  mkSketch h (levelsData s) ls (li s) (player s) (canvas s).

(** The text settings that end [setup] only touch the drawing state of
    p5 and are left out. *)
Definition setup (s : Sketch) : Sketch * completion unit :=
  match build_levels (levelsData s) (store s) with
  | Throw e => (s, Throw e)
  | Normal (h, ls) =>
      let s := set_levels h ls s in
      let s := set_player (new_Player TS) s in
      loadLevel (Int 0) s
  end.

(** [levels[li].handleClick(mouseX, mouseY)]: the Level object in the
    array is the one that changes. *)
Definition mousePressed (mouseX mouseY : Z) (s : Sketch)
    : Sketch * completion unit :=
  match index (levels s) (li s) with
  | None => (s, Throw TypeError)
  | Some level =>
      match handleClick (store s) level mouseX mouseY with
      | Throw e => (s, Throw e)
      | Normal level' =>
          let ls :=
            match li s with
            | Int i => <[Z.to_nat i := level']> (levels s)
            | _ => levels s
            end in
          (set_levels (store s) ls s, Normal ())
      end
  end.
End sketch.

(* ===================================================================== *)
(** * Drawing (level.js and sketch.js)                                   *)
(* ===================================================================== *)

(** The calls into p5 that the drawing code makes, in the order it makes
    them; a function that draws returns the calls it issued together with
    its completion, so that the calls made before a throw stay. *)
Inductive p5_call :=
  | Background (gray : Z)
  | Stroke (gray : Z)
  | StrokeWeight (weight : Z)
  | Fill (gray : Z)
  | Rect (x y w hgt : Z)
  | Text (str : string) (x y : Z).

Global Instance p5_call_eq_dec : EqDecision p5_call.
Proof. solve_decision. Defined.

(** A counting [for] loop whose body issues calls and may throw. *)
Fixpoint for_each (n i : nat) (body : nat → list p5_call * completion unit)
    : list p5_call * completion unit :=
  match n with
  | O => ([], Normal ())
  | S n' =>
      match body i with
      | (t, Normal _) =>
          let '(t', res) := for_each n' (S i) body in (t ++ t', res)
      | (t, Throw e) => (t, Throw e)
      end
  end.

(** [Level.draw]: the tile value [v] is read and then not used. *)
Definition draw (h : heap) (this : Level) : list p5_call * completion unit :=
  for_each (rows this) 0%nat (λ r,
    match cols h this with
    | Throw e => ([], Throw e)
    | Normal n =>
        for_each n 0%nat (λ c,
          match grid_get h this (of_nat r) (of_nat c) with
          | Throw e => ([], Throw e)
          | Normal v =>
              let k := key (of_nat r) (of_nat c) in
              ([Stroke 0; StrokeWeight 1;
                Fill (if bool_decide (k ∈ clickedTiles this) then 0 else 232);
                Rect (Z.of_nat c * ts this) (Z.of_nat r * ts this)
                     (ts this) (ts this)],
               Normal ())
          end)
    end).

Section sketch_drawing.
Context {Player : Type}.

Definition drawHUD (s : @Sketch Player) : list p5_call :=
  [Fill 0;
   Text ("Level " +:+ num_to_string (num_add (li s) (Int 1)) +:+ "/" +:+
         num_to_string (of_nat (length (levels s))) +:+ " —  Click to paint")
        10 16].

(** The [draw] function of the sketch. *)
Definition sketch_draw (s : @Sketch Player) : list p5_call * completion unit :=
  match index (levels s) (li s) with
  | None => ([Background 240], Throw TypeError)
  | Some level =>
      match draw (store s) level with
      | (t, Throw e) => (Background 240 :: t, Throw e)
      | (t, Normal _) => (Background 240 :: t ++ drawHUD s, Normal ())
      end
  end.
End sketch_drawing.

(* ===================================================================== *)
(** * Vocabulary of the statements                                       *)
(* ===================================================================== *)

(** The tile stored at row [r], column [c], when the grid has that row and
    the row has that column. *)
Definition cell (h : heap) (L : Level) (r c : nat) : option value :=
  l ← grid L !! r; deref h l !! c.

(** Row-major order on cells: smaller row first, then smaller column. *)
Definition row_major_le (p q : Cell) : Prop :=
  (pos_r p < pos_r q)%nat ∨ (pos_r p = pos_r q ∧ (pos_c p ≤ pos_c q)%nat).

(** A cell that holds the start tile. *)
Definition holds_start (h : heap) (L : Level) (p : Cell) : Prop :=
  cell h L (pos_r p) (pos_c p) = Some (Num 2).

(** A start tile at a cell that passes the bounds test of the level. *)
Definition in_bounds_start (h : heap) (L : Level) (p : Cell) : Prop :=
  inBounds h L (of_nat (pos_r p)) (of_nat (pos_c p)) = Normal true ∧
  holds_start h L p.

(** [findStart] read over every cell of the grid: its result is the first
    cell in row-major order that holds the start tile, null when no cell
    does. *)
Definition first_start_of_all_cells (h : heap) (L : Level) : Prop :=
  ∃ res, findStart h L = Normal res ∧
    match res with
    | Some p => holds_start h L p ∧ ∀ q, holds_start h L q → row_major_le p q
    | None => ∀ q, ¬ holds_start h L q
    end.

(** No row is longer than the first one: every cell is in bounds. *)
Definition no_row_wider (h : heap) (L : Level) : Prop :=
  ∀ r l l0, grid L !! r = Some l → grid L !! 0%nat = Some l0 →
            (length (deref h l) ≤ length (deref h l0))%nat.

(** No row is shorter than the first one: every in-bounds cell exists. *)
Definition no_row_narrower (h : heap) (L : Level) : Prop :=
  ∀ r l l0, grid L !! r = Some l → grid L !! 0%nat = Some l0 →
            (length (deref h l0) ≤ length (deref h l))%nat.

(** The read of [tileAt] at an in-bounds cell finds a row and a column. *)
Definition in_bounds_cells_exist (h : heap) (L : Level) : Prop :=
  ∀ r c : Z, inBounds h L (Int r) (Int c) = Normal true →
             is_Some (cell h L (Z.to_nat r) (Z.to_nat c)).

(** A store with the given rows, and the grid that lists them in order. *)
Definition store_of (rws : list (list Z)) : heap * list loc :=
  foldr (λ row '(h, g), let '(h', l) := alloc h (Num <$> row) in (h', l :: g))
        (∅, []) rws.

(** Two rows, the second longer than the first, with the only start tile
    in the extra column. *)
Definition ragged_wide : heap * list loc := store_of [[0]; [0; 2]].
Definition ragged_wide_level : Level := mkLevel ragged_wide.2 TS None ∅.

(** Two rows, the second shorter than the first. *)
Definition ragged_narrow : heap * list loc := store_of [[0; 0]; [0]].
Definition ragged_narrow_level : Level := mkLevel ragged_narrow.2 TS None ∅.

(** A string without a comma, as the decimal rendering of an integer is. *)
Fixpoint comma_free (s : string) : Prop :=
  match s with
  | EmptyString => True
  | String a s' => a ≠ ","%char ∧ comma_free s'
  end.

(** A maze of three rows and four columns, with its start tile at row 1,
    column 2 and its goal next to it. *)
Definition maze : heap * list loc :=
  store_of [[1; 1; 1; 1]; [1; 0; 2; 3]; [1; 0; 0; 1]].
Definition maze_level : Level := mkLevel maze.2 TS None ∅.

(** Every row of the grid is an array of the store. *)
Definition allocated (h : heap) (g : list loc) : Prop :=
  ∀ l, l ∈ g → l ∈ dom h.

(** Every painted key names an in-bounds cell. *)
Definition clicked_in_bounds (h : heap) (L : Level) : Prop :=
  ∀ k, k ∈ clickedTiles L →
       ∃ r c : Z, k = key (Int r) (Int c) ∧
                  inBounds h L (Int r) (Int c) = Normal true.

(** The states of a Level object: it is constructed, it is clicked, and
    meanwhile other grids are copied and other Level objects constructed
    in the same store, possibly over rows it shares. *)
Inductive reachable : heap → Level → Prop :=
  | reach_new g t h h' L :
      new_Level g t h = Normal (h', L) → reachable h' L
  | reach_click h L mouseX mouseY L' :
      reachable h L → handleClick h L mouseX mouseY = Normal L' →
      reachable h L'
  | reach_other g t h h' L L2 :
      reachable h L → new_Level g t h = Normal (h', L2) → reachable h' L
  | reach_copy g h h' g' L :
      reachable h L → allocated h g → allocated h (grid L) →
      copyGrid g h = (h', g') → reachable h' L.

(** Every level of the sketch keeps its painted keys in bounds. *)
Definition all_clicked_in_bounds {Player : Type} (s : @Sketch Player) : Prop :=
  Forall (clicked_in_bounds (store s)) (levels s).

(** The states of the sketch once [setup] has run on loaded data: mouse
    presses and level changes, in any order. *)
Inductive running {Player : Type} (new_Player : Z → Player)
    (setCell : Player → Z → Z → Player) : @Sketch Player → Prop :=
  | run_setup s :
      Forall (allocated (store s)) (levelsData s) →
      running new_Player setCell (setup new_Player setCell s).1
  | run_click s mouseX mouseY :
      running new_Player setCell s →
      running new_Player setCell (mousePressed mouseX mouseY s).1
  | run_next s :
      running new_Player setCell s →
      running new_Player setCell (nextLevel setCell s).1.

(** The maze after construction, and after a click at pixel (40, 70). *)
Definition built_maze : heap * Level :=
  match new_Level maze.2 TS maze.1 with
  | Normal x => x
  | Throw _ => (maze.1, maze_level)
  end.

Definition clicked_maze : Level :=
  match handleClick built_maze.1 built_maze.2 40 70 with
  | Normal L => L
  | Throw _ => built_maze.2
  end.

(** A sketch whose raw data holds the maze twice, with a player that is
    the pair of its cell coordinates; the same sketch after [setup] with
    the last level active. *)
Definition demo_setCell (p : Z * Z) (r c : Z) : Z * Z := (r, c).
Definition demo_new_Player (size : Z) : Z * Z := (0, 0).

Definition demo_sketch : @Sketch (Z * Z) :=
  mkSketch maze.1 [maze.2; maze.2] [] (Int 0) None None.

Definition demo_last_level : @Sketch (Z * Z) :=
  set_li (Int 1) (setup demo_new_Player demo_setCell demo_sketch).1.

(** The calls that [draw] issues for the tile at row [r], column [c]. *)
Definition tile_calls (L : Level) (r c : nat) : list p5_call :=
  [Stroke 0; StrokeWeight 1;
   Fill (if bool_decide (key (of_nat r) (of_nat c) ∈ clickedTiles L)
         then 0 else 232);
   Rect (Z.of_nat c * ts L) (Z.of_nat r * ts L) (ts L) (ts L)].

(** The width the class gives to every row: the length of the first row,
    and 0 for a grid without rows. *)
Definition width (h : heap) (L : Level) : nat :=
  match cols h L with Normal n => n | Throw _ => 0%nat end.

(** One block of calls per cell, rows from top to bottom and each row
    from left to right. *)
Definition frame (h : heap) (L : Level) : list p5_call :=
  r ← seq 0 (rows L); c ← seq 0 (width h L); tile_calls L r c.

(** The raw grid [g], read in the store [h0], as a level that was never
    constructed. *)
Definition raw_level (g : list loc) : Level := mkLevel g TS None ∅.

(** [L], read in the store [h], is the level of the raw grid [g], read in
    [h0]: same shape, rows that are distinct arrays, the start that a scan
    of the raw grid finds, and the tiles of the raw grid but for the start
    tile, which reads 0. *)
Definition level_of_raw (h0 : heap) (g : list loc) (h : heap) (L : Level)
    : Prop :=
  ts L = TS ∧ clickedTiles L = ∅ ∧ NoDup (grid L) ∧
  length (grid L) = length g ∧
  (∀ i l l0, grid L !! i = Some l → g !! i = Some l0 →
             length (deref h l) = length (deref h0 l0)) ∧
  findStart h0 (raw_level g) = Normal (start L) ∧
  ∀ r c, cell h L r c =
         if decide (start L = Some (mkCell r c)) then Some (Num 0)
         else cell h0 (raw_level g) r c.

(** [nextLevel] called [k] times in a row. *)
Fixpoint next_times {Player : Type} (setCell : Player → Z → Z → Player)
    (k : nat) (s : @Sketch Player) : @Sketch Player :=
  match k with
  | O => s
  | S k' => (nextLevel setCell (next_times setCell k' s)).1
  end.

(** The sketch without levels: what [setup] leaves when the raw data is
    empty. *)
Definition no_levels_sketch : @Sketch (Z * Z) :=
  mkSketch ∅ [] [] (Int 0) (Some (0, 0)) None.

(* ===================================================================== *)
(** * Properties                                                         *)
(* ===================================================================== *)

(** ** Array reads *)

Lemma index_of_nat {A} (arr : list A) (n : nat) : index arr (of_nat n) = arr !! n.
Proof.
  unfold index, of_nat. rewrite decide_True by lia. by rewrite Nat2Z.id.
Qed.

Lemma index_Int_Some {A} (arr : list A) (z : Z) (x : A) :
  index arr (Int z) = Some x ↔ 0 ≤ z ∧ arr !! Z.to_nat z = Some x.
Proof.
  unfold index. case_decide; split.
  - by intros ->.
  - by intros [_ ->].
  - done.
  - intros [? _]. lia.
Qed.

Lemma index_Int_lt {A} (arr : list A) (z : Z) :
  0 ≤ z < Z.of_nat (length arr) → is_Some (index arr (Int z)).
Proof.
  intros [Hz Hlt]. unfold index. rewrite decide_True by done.
  apply lookup_lt_is_Some. lia.
Qed.

Lemma index_zero {A} (arr : list A) : index arr (Int 0) = head arr.
Proof. by destruct arr. Qed.

(** ** Pixel to cell *)

(** With a positive tile size, [floor_div] is the number of whole tiles
    left of (or above) the pixel. *)
Lemma floor_div_pos (a b : Z) :
  0 < b → ∃ q, floor_div a b = Int q ∧ b * q ≤ a < b * (q + 1).
Proof.
  intros Hb. exists (a `div` b). unfold floor_div.
  rewrite decide_False by lia. split; [done|].
  pose proof (Z.div_mod a b ltac:(lia)).
  pose proof (Z.mod_pos_bound a b Hb). lia.
Qed.

Lemma floor_div_zero (a : Z) : ∀ z, floor_div a 0 ≠ Int z.
Proof. intros z. unfold floor_div. simpl. by repeat case_decide. Qed.

(** ** Size helpers *)

Lemma cols_first_row h L n :
  cols h L = Normal n ↔ ∃ l0, grid L !! 0%nat = Some l0 ∧ n = length (deref h l0).
Proof.
  unfold cols. rewrite index_zero, <-head_lookup.
  destruct (head (grid L)) as [l0|]; split.
  - intros [= <-]. by exists l0.
  - by intros (? & [= <-] & ->).
  - done.
  - by intros (? & ? & _).
Qed.

Lemma cols_nonempty h L :
  (0 < rows L)%nat → ∃ n, cols h L = Normal n.
Proof.
  unfold rows, cols. destruct (grid L) as [|l0 g]; simpl; [lia|]. eauto.
Qed.

Lemma cols_empty h L : rows L = 0%nat → cols h L = Throw TypeError.
Proof. unfold rows, cols. by destruct (grid L). Qed.

(** ** Bounds *)

Lemma inBounds_Int h L (r c : Z) :
  ∃ b : bool,
    inBounds h L (Int r) (Int c) = Normal b ∧
    (b = true ↔
       0 ≤ r < Z.of_nat (rows L) ∧
       ∃ n, cols h L = Normal n ∧ 0 ≤ c < Z.of_nat n).
Proof.
  unfold inBounds, and_then, num_ge, num_lt, of_nat.
  destruct (decide (r < 0)).
  { rewrite (bool_decide_eq_true_2 (r < 0)) by done. simpl.
    exists false. split; [done|]. split; [done|lia]. }
  rewrite (bool_decide_eq_false_2 (r < 0)) by done. simpl.
  destruct (decide (c < 0)).
  { rewrite (bool_decide_eq_true_2 (c < 0)) by done. simpl.
    exists false. split; [done|]. split; [done|].
    intros [_ (k & _ & ?)]. lia. }
  rewrite (bool_decide_eq_false_2 (c < 0)) by done. simpl.
  destruct (decide (r < Z.of_nat (rows L))) as [Hr|Hr].
  - rewrite (bool_decide_eq_true_2 _ Hr).
    destruct (cols_nonempty h L) as [k Hk]; [lia|]. rewrite Hk. simpl.
    eexists. split; [done|]. rewrite bool_decide_eq_true. split.
    + intros ?. split; [lia|]. exists k. split; [done|lia].
    + intros [_ (k' & [= <-] & ?)]. lia.
  - rewrite (bool_decide_eq_false_2 _ Hr).
    exists false. split; [done|]. split; [done|lia].
Qed.

(** A coordinate that is not a finite number is never in bounds, and the
    test does not throw on it. *)
Lemma inBounds_total h L r c : ∃ b, inBounds h L r c = Normal b.
Proof.
  unfold inBounds, and_then.
  destruct (num_ge r (Int 0)) eqn:Hr0; [|eauto].
  destruct (num_ge c (Int 0)); [|eauto].
  destruct (num_lt r (of_nat (rows L))) eqn:Hr; [|eauto].
  destruct (cols_nonempty h L) as [k Hk].
  { destruct r; simpl in Hr0, Hr; try done.
    apply bool_decide_eq_true in Hr.
    apply negb_true_iff, bool_decide_eq_false in Hr0. lia. }
  rewrite Hk. simpl. eauto.
Qed.

Lemma inBounds_true_Int h L r c :
  inBounds h L r c = Normal true →
  ∃ zr zc, r = Int zr ∧ c = Int zc.
Proof.
  unfold inBounds, and_then.
  destruct r, c; simpl; try discriminate; eauto;
    repeat (case_bool_decide; simpl; try discriminate);
    destruct (cols h L); simpl; try discriminate.
Qed.

(** C5. For all integers [r] and [c], [inBounds(r, c)] returns true exactly
    when [0 <= r < rows()] and [0 <= c < cols()], where [rows()] is the
    length of the grid and [cols()] the length of its first row.  The test
    never throws: on a grid without rows, whose [cols()] does, the row test
    has failed before the column test is reached. *)
Theorem inBounds_iff (h : heap) (L : Level) (r c : Z) :
  ∃ b : bool,
    inBounds h L (Int r) (Int c) = Normal b ∧
    (b = true ↔
       0 ≤ r < Z.of_nat (rows L) ∧
       ∃ n, cols h L = Normal n ∧ 0 ≤ c < Z.of_nat n) ∧
    rows L = length (grid L) ∧
    (∀ n, cols h L = Normal n ↔
          ∃ l0, grid L !! 0%nat = Some l0 ∧ n = length (deref h l0)).
Proof.
  destruct (inBounds_Int h L r c) as (b & Hb & Hiff).
  exists b. split; [done|]. split; [done|]. split; [done|].
  intros n. apply cols_first_row.
Qed.

Lemma inBounds_of_nat h L (r c : nat) :
  inBounds h L (of_nat r) (of_nat c) = Normal true ↔
  (r < rows L)%nat ∧ ∃ n, cols h L = Normal n ∧ (c < n)%nat.
Proof.
  destruct (inBounds_Int h L (Z.of_nat r) (Z.of_nat c)) as (b & Hb & Hiff).
  unfold of_nat. rewrite Hb. split.
  - intros [= ->]. destruct Hiff as [Hiff _].
    destruct Hiff as [? (n & ? & ?)]; [done|]. split; [lia|].
    exists n. split; [done|lia].
  - intros [? (n & ? & ?)]. f_equal. apply Hiff. split; [lia|].
    exists n. split; [done|lia].
Qed.

(** ** The start tile *)

Lemma scan_Normal {A} (n i : nat) (body : nat → completion (option A))
    (f : nat → option A) :
  (∀ j, (i ≤ j < i + n)%nat → body j = Normal (f j)) →
  ∃ res, scan n i body = Normal res ∧
    match res with
    | Some a => ∃ j, (i ≤ j < i + n)%nat ∧ f j = Some a ∧
                     ∀ k, (i ≤ k < j)%nat → f k = None
    | None => ∀ j, (i ≤ j < i + n)%nat → f j = None
    end.
Proof.
  revert i. induction n as [|n IH]; intros i Hbody; simpl.
  - exists None. split; [done|]. intros j ?. lia.
  - rewrite (Hbody i) by lia. simpl. destruct (f i) as [a|] eqn:Hfi.
    + exists (Some a). split; [done|]. exists i. split; [lia|].
      split; [done|]. intros k ?. lia.
    + destruct (IH (S i)) as (res & Hres & Hspec).
      { intros j ?. apply Hbody. lia. }
      exists res. split; [done|]. destruct res as [a|].
      * destruct Hspec as (j & ? & ? & Hbefore). exists j.
        split; [lia|]. split; [done|]. intros k ?.
        destruct (decide (k = i)) as [->|]; [done|]. apply Hbefore. lia.
      * intros j ?. destruct (decide (j = i)) as [->|]; [done|].
        apply Hspec. lia.
Qed.

Lemma grid_get_of_nat h L (r c : nat) :
  (r < rows L)%nat →
  grid_get h L (of_nat r) (of_nat c) = Normal (default Undefined (cell h L r c)).
Proof.
  intros Hr. unfold grid_get, cell. rewrite index_of_nat.
  destruct (lookup_lt_is_Some_2 (grid L) r Hr) as [l Hl]. rewrite Hl.
  by rewrite index_of_nat.
Qed.

Lemma strict_eq_cell (o : option value) (z : Z) :
  strict_eq (default Undefined o) (Num z) = true ↔ o = Some (Num z).
Proof.
  unfold strict_eq. rewrite bool_decide_eq_true.
  destruct o as [v|]; simpl; split; congruence.
Qed.

(** The inner loop of [findStart] on a row of the grid. *)
Lemma findStart_row h L (r n : nat) :
  (r < rows L)%nat → cols h L = Normal n →
  ∃ res,
    scan n 0%nat (λ c,
      v ← grid_get h L (of_nat r) (of_nat c);
      Normal (if strict_eq v (Num 2) then Some (mkCell r c) else None))
    = Normal res ∧
    match res with
    | Some p => pos_r p = r ∧ (pos_c p < n)%nat ∧ holds_start h L p ∧
                ∀ c, (c < pos_c p)%nat → cell h L r c ≠ Some (Num 2)
    | None => ∀ c, (c < n)%nat → cell h L r c ≠ Some (Num 2)
    end.
Proof.
  intros Hr Hcols.
  set (f := λ c : nat,
         if strict_eq (default Undefined (cell h L r c)) (Num 2)
         then Some (mkCell r c) else None).
  destruct (scan_Normal n 0%nat
    (λ c, v ← grid_get h L (of_nat r) (of_nat c);
          Normal (if strict_eq v (Num 2) then Some (mkCell r c) else None)) f)
    as (res & Hres & Hspec).
  { intros c _. by rewrite grid_get_of_nat. }
  exists res. split; [exact Hres|].
  subst f. destruct res as [p|]; simpl in Hspec.
  - destruct Hspec as (c & Hc & Hfound & Hbefore).
    destruct (strict_eq _ _) eqn:Heq in Hfound; [|done].
    injection Hfound as <-. apply strict_eq_cell in Heq. simpl.
    split; [done|]. split; [lia|]. split; [done|].
    intros c' Hc' Hcell. specialize (Hbefore c' ltac:(lia)).
    apply strict_eq_cell in Hcell. by rewrite Hcell in Hbefore.
  - intros c Hc Hcell. specialize (Hspec c ltac:(lia)).
    apply strict_eq_cell in Hcell. by rewrite Hcell in Hspec.
Qed.

(** [findStart] returns normally, and its result is the first in-bounds
    cell, in row-major order, that holds the start tile. *)
Lemma findStart_spec h L :
  ∃ res, findStart h L = Normal res ∧
    match res with
    | Some p => in_bounds_start h L p ∧
                ∀ q, in_bounds_start h L q → row_major_le p q
    | None => ∀ q, ¬ in_bounds_start h L q
    end.
Proof.
  unfold findStart. set (body := λ r : nat, _).
  assert (Hrow : ∀ r, (r < rows L)%nat →
     ∃ n res, cols h L = Normal n ∧ body r = Normal res ∧
       match res with
       | Some p => pos_r p = r ∧ (pos_c p < n)%nat ∧ holds_start h L p ∧
                   ∀ c, (c < pos_c p)%nat → cell h L r c ≠ Some (Num 2)
       | None => ∀ c, (c < n)%nat → cell h L r c ≠ Some (Num 2)
       end).
  { intros r Hr. destruct (cols_nonempty h L) as [n Hn]; [lia|].
    destruct (findStart_row h L r n Hr Hn) as (res & Hres & Hspec).
    exists n, res. split; [done|]. split; [|done].
    subst body. simpl. rewrite Hn. simpl. exact Hres. }
  set (f := λ r : nat, match body r with Normal x => x | Throw _ => None end).
  destruct (scan_Normal (rows L) 0%nat body f) as (res & Hres & Hspec).
  { intros r ?. destruct (Hrow r) as (n & x & _ & Hx & _); [lia|].
    subst f. simpl. by rewrite Hx. }
  exists res. split; [done|]. destruct res as [p|].
  - destruct Hspec as (r & Hr & Hfr & Hbefore).
    destruct (Hrow r) as (n & x & Hn & Hx & Hp); [lia|].
    subst f. simpl in Hfr, Hbefore. rewrite Hx in Hfr. subst x.
    destruct Hp as (Hpr & Hpc & Hp2 & Hpmin). split.
    + split; [|done]. apply inBounds_of_nat. split; [lia|]. eauto.
    + intros q [Hq Hq2]. apply inBounds_of_nat in Hq as [Hqr (m & Hm & Hqc)].
      rewrite Hn in Hm. injection Hm as <-. unfold row_major_le.
      destruct (decide (pos_r q < r)%nat) as [Hlt|].
      { specialize (Hbefore (pos_r q) ltac:(lia)).
        destruct (Hrow (pos_r q)) as (n' & x & Hn' & Hx' & Hnone); [lia|].
        rewrite Hx' in Hbefore. subst x. rewrite Hn in Hn'. injection Hn' as <-.
        by destruct (Hnone (pos_c q)). }
      destruct (decide (pos_r q = r)) as [Heq|]; [|left; lia].
      right. split; [lia|]. destruct (decide (pos_c p ≤ pos_c q)%nat); [done|].
      destruct (Hpmin (pos_c q)); [lia|]. by rewrite <-Heq.
  - intros q [Hq Hq2]. apply inBounds_of_nat in Hq as [Hqr (m & Hm & Hqc)].
    specialize (Hspec (pos_r q) ltac:(lia)).
    destruct (Hrow (pos_r q)) as (n' & x & Hn' & Hx' & Hnone); [lia|].
    subst f. simpl in Hspec. rewrite Hx' in Hspec. subst x.
    rewrite Hm in Hn'. injection Hn' as <-. by destruct (Hnone (pos_c q)).
Qed.

(** C1, as amended.  For every grid, [findStart] returns normally; its
    result is the first cell in row-major order (smallest row first, then
    smallest column) among the in-bounds cells that hold tile value 2, and
    null when no in-bounds cell holds value 2.  In particular, when exactly
    one in-bounds cell holds the start tile, that cell is returned.  A cell
    is in bounds when its column is below the length of the first row. *)
Theorem findStart_first_in_bounds (h : heap) (L : Level) :
  ∃ res, findStart h L = Normal res ∧
    match res with
    | Some p => in_bounds_start h L p ∧
                ∀ q, in_bounds_start h L q → row_major_le p q
    | None => ∀ q, ¬ in_bounds_start h L q
    end ∧
    ∀ p, in_bounds_start h L p →
         (∀ q, in_bounds_start h L q → q = p) → res = Some p.
Proof.
  destruct (findStart_spec h L) as (res & Hres & Hspec).
  exists res. split; [done|]. split; [done|].
  intros p Hp Huniq. destruct res as [p'|].
  - destruct Hspec as [Hp' _]. f_equal. by apply Huniq.
  - by destruct (Hspec p).
Qed.

(** On the grid [[0], [0, 2]] the only start tile sits at row 1, column 1,
    past the length of the first row: the scan stops short of it and
    [findStart] returns null. *)
Lemma findStart_misses_wide_row :
  findStart ragged_wide.1 ragged_wide_level = Normal None ∧
  holds_start ragged_wide.1 ragged_wide_level (mkCell 1 1) ∧
  (∀ q, holds_start ragged_wide.1 ragged_wide_level q → q = mkCell 1 1) ∧
  ¬ first_start_of_all_cells ragged_wide.1 ragged_wide_level.
Proof.
  assert (Hnull : findStart ragged_wide.1 ragged_wide_level = Normal None)
    by (vm_compute; reflexivity).
  assert (Hcell : holds_start ragged_wide.1 ragged_wide_level (mkCell 1 1))
    by (vm_compute; reflexivity).
  split; [done|]. split; [done|]. split.
  - intros [r c]. unfold holds_start. simpl.
    destruct r as [|[|r]]; [| |by vm_compute];
      (destruct c as [|[|c]]; vm_compute; congruence).
  - intros (res & Hres & Hspec). rewrite Hnull in Hres.
    injection Hres as <-. by apply (Hspec (mkCell 1 1)).
Qed.

Lemma cell_Some_lt h L (r c : nat) v :
  cell h L r c = Some v →
  ∃ l, grid L !! r = Some l ∧ (r < rows L)%nat ∧ (c < length (deref h l))%nat.
Proof.
  unfold cell. destruct (grid L !! r) as [l|] eqn:Hl; simpl; [|done].
  intros Hc. exists l. split; [done|]. split.
  - by apply lookup_lt_Some in Hl.
  - by apply lookup_lt_Some in Hc.
Qed.

(** On a grid none of whose rows is longer than the first, the in-bounds
    cells are all the cells, and [findStart] returns the first start tile
    of the whole grid. *)
Lemma findStart_first_of_all (h : heap) (L : Level) :
  no_row_wider h L → first_start_of_all_cells h L.
Proof.
  intros Hwide.
  assert (Hin : ∀ q, holds_start h L q → in_bounds_start h L q).
  { intros q Hq. split; [|done].
    destruct (cell_Some_lt _ _ _ _ _ Hq) as (l & Hl & Hr & Hc).
    apply inBounds_of_nat. split; [done|].
    destruct (cols_nonempty h L) as [n Hn]; [lia|]. exists n. split; [done|].
    apply cols_first_row in Hn as (l0 & Hl0 & ->).
    specialize (Hwide _ _ _ Hl Hl0). lia. }
  destruct (findStart_spec h L) as (res & Hres & Hspec).
  exists res. split; [done|]. destruct res as [p|].
  - destruct Hspec as [[_ Hp] Hmin]. split; [done|]. intros q Hq.
    by apply Hmin, Hin.
  - intros q Hq. by apply (Hspec q), Hin.
Qed.

(** ** Tile queries *)

Lemma grid_get_in_bounds h L (r c : Z) :
  inBounds h L (Int r) (Int c) = Normal true →
  ∃ l, grid L !! Z.to_nat r = Some l ∧
       grid_get h L (Int r) (Int c) =
         Normal (default Undefined (cell h L (Z.to_nat r) (Z.to_nat c))).
Proof.
  intros Hin. destruct (inBounds_Int h L r c) as (b & Hb & Hiff).
  rewrite Hb in Hin. injection Hin as ->.
  destruct Hiff as [Hiff _]. destruct Hiff as [Hr (n & Hn & Hc)]; [done|].
  destruct (lookup_lt_is_Some_2 (grid L) (Z.to_nat r)) as [l Hl].
  { unfold rows in Hr. lia. }
  exists l. split; [done|]. unfold grid_get, cell, index.
  rewrite decide_True by lia. rewrite Hl. simpl.
  by rewrite decide_True by lia.
Qed.

(** C6, as amended.  For every cell [(r, c)] satisfying [inBounds(r, c)],
    the row access of [tileAt] succeeds, so that [tileAt], [isWall] and
    [isGoal] return without throwing; [isWall] returns true exactly when
    the cell's tile code is 1 and [isGoal] exactly when it is 3.  The
    column access succeeds as well, and [tileAt] returns the stored tile,
    when no row of the grid is shorter than the first. *)
Theorem isWall_isGoal_in_bounds (h : heap) (L : Level) (r c : Z) :
  inBounds h L (Int r) (Int c) = Normal true →
  ∃ (v : value) (wall goal : bool),
    tileAt h L (Int r) (Int c) = Normal v ∧
    isWall h L (Int r) (Int c) = Normal wall ∧
    isGoal h L (Int r) (Int c) = Normal goal ∧
    (wall = true ↔ cell h L (Z.to_nat r) (Z.to_nat c) = Some (Num 1)) ∧
    (goal = true ↔ cell h L (Z.to_nat r) (Z.to_nat c) = Some (Num 3)) ∧
    is_Some (grid L !! Z.to_nat r) ∧
    (no_row_narrower h L → cell h L (Z.to_nat r) (Z.to_nat c) = Some v).
Proof.
  intros Hin. destruct (grid_get_in_bounds h L r c Hin) as (l & Hl & Hget).
  eexists _, _, _. unfold isWall, isGoal, tileAt. rewrite Hget. simpl.
  split; [done|]. split; [done|]. split; [done|].
  split; [apply strict_eq_cell|]. split; [apply strict_eq_cell|].
  split; [by exists l|]. intros Hnarrow.
  destruct (inBounds_Int h L r c) as (b & Hb & Hiff).
  rewrite Hb in Hin. injection Hin as ->.
  destruct Hiff as [Hiff _]. destruct Hiff as [Hr (n & Hn & Hc)]; [done|].
  apply cols_first_row in Hn as (l0 & Hl0 & ->).
  specialize (Hnarrow _ _ _ Hl Hl0).
  destruct (lookup_lt_is_Some_2 (deref h l) (Z.to_nat c)) as [v Hv]; [lia|].
  unfold cell. rewrite Hl. simpl. by rewrite Hv.
Qed.

(** The queries at row 0, column 1 of the grid [[0, 0], [0]]. *)
Lemma isWall_isGoal_in_bounds_witness :
  ∃ (v : value) (wall goal : bool),
    tileAt ragged_narrow.1 ragged_narrow_level (Int 0) (Int 1) = Normal v ∧
    isWall ragged_narrow.1 ragged_narrow_level (Int 0) (Int 1) = Normal wall ∧
    isGoal ragged_narrow.1 ragged_narrow_level (Int 0) (Int 1) = Normal goal ∧
    (wall = true ↔ cell ragged_narrow.1 ragged_narrow_level
                     (Z.to_nat 0) (Z.to_nat 1) = Some (Num 1)) ∧
    (goal = true ↔ cell ragged_narrow.1 ragged_narrow_level
                     (Z.to_nat 0) (Z.to_nat 1) = Some (Num 3)) ∧
    is_Some (ragged_narrow.2 !! Z.to_nat 0) ∧
    (no_row_narrower ragged_narrow.1 ragged_narrow_level →
     cell ragged_narrow.1 ragged_narrow_level (Z.to_nat 0) (Z.to_nat 1) = Some v).
Proof.
  apply (isWall_isGoal_in_bounds ragged_narrow.1 ragged_narrow_level 0 1).
  vm_compute. reflexivity.
Defined.

(** On the grid [[0, 0], [0]] the cell at row 1, column 1 passes the bounds
    test, whose width is that of the first row, and the second row has no
    such column: the read returns [undefined]. *)
Lemma tileAt_misses_narrow_row :
  inBounds ragged_narrow.1 ragged_narrow_level (Int 1) (Int 1) = Normal true ∧
  cell ragged_narrow.1 ragged_narrow_level 1 1 = None ∧
  tileAt ragged_narrow.1 ragged_narrow_level (Int 1) (Int 1) = Normal Undefined ∧
  ¬ in_bounds_cells_exist ragged_narrow.1 ragged_narrow_level.
Proof.
  assert (Hin : inBounds ragged_narrow.1 ragged_narrow_level (Int 1) (Int 1)
                = Normal true) by (vm_compute; reflexivity).
  assert (Hcell : cell ragged_narrow.1 ragged_narrow_level 1 1 = None)
    by (vm_compute; reflexivity).
  split; [done|]. split; [done|]. split; [vm_compute; reflexivity|].
  intros Hall. destruct (Hall 1 1 Hin) as [v Hv].
  change (Z.to_nat 1) with 1%nat in Hv. by rewrite Hcell in Hv.
Qed.

(** On a grid none of whose rows is shorter than the first, every
    in-bounds cell exists. *)
Lemma in_bounds_cells_exist_no_row_narrower (h : heap) (L : Level) :
  no_row_narrower h L → in_bounds_cells_exist h L.
Proof.
  intros Hnarrow r c Hin.
  destruct (inBounds_Int h L r c) as (b & Hb & Hiff).
  rewrite Hb in Hin. injection Hin as ->.
  destruct Hiff as [Hiff _]. destruct Hiff as [Hr (n & Hn & Hc)]; [done|].
  apply cols_first_row in Hn as (l0 & Hl0 & ->).
  destruct (lookup_lt_is_Some_2 (grid L) (Z.to_nat r)) as [l Hl].
  { unfold rows in Hr. lia. }
  specialize (Hnarrow _ _ _ Hl Hl0).
  destruct (lookup_lt_is_Some_2 (deref h l) (Z.to_nat c)) as [v Hv]; [lia|].
  exists v. unfold cell. rewrite Hl. simpl. by rewrite Hv.
Qed.

(** ** Keys of the painted set *)

Lemma append_comma_inj (a a' b b' : string) :
  comma_free a → comma_free a' →
  a +:+ "," +:+ b = a' +:+ "," +:+ b' → a = a' ∧ b = b'.
Proof.
  revert a'. induction a as [|x a IH]; intros [|x' a'] Ha Ha' Heq;
    simpl in Heq.
  - injection Heq as Htl. by subst.
  - injection Heq as Hhd _. destruct Ha' as [Hx' _]. by destruct Hx'.
  - injection Heq as Hhd _. destruct Ha as [Hx _]. by destruct Hx.
  - injection Heq as Hhd Htl. destruct Ha as [_ Ha], Ha' as [_ Ha'].
    destruct (IH a' Ha Ha' Htl) as [Ha_eq Hb_eq]. by subst.
Qed.

Lemma pretty_N_go_comma_free (x : N) (s : string) :
  comma_free s → comma_free (pretty_N_go x s).
Proof.
  revert s. induction (N.lt_wf_0 x) as [x _ IH]. intros s Hs.
  assert (x = 0 ∨ 0 < x)%N as [->|Hpos] by lia.
  - by rewrite pretty_N_go_0.
  - rewrite pretty_N_go_step by done. apply IH.
    { by apply N.div_lt. }
    split; [|done]. unfold pretty_N_char. by repeat case_match.
Qed.

Lemma pretty_N_comma_free (x : N) : comma_free (pretty x).
Proof.
  unfold pretty, pretty_N. case_decide; [by simpl|].
  by apply pretty_N_go_comma_free.
Qed.

Lemma pretty_Z_comma_free (z : Z) : comma_free (pretty z).
Proof.
  destruct z as [|p|p]; unfold pretty, pretty_Z.
  - by simpl.
  - apply pretty_N_comma_free.
  - simpl. split; [done|]. apply pretty_N_comma_free.
Qed.

(** Distinct cells have distinct keys. *)
Lemma key_inj (r c r' c' : Z) :
  key (Int r) (Int c) = key (Int r') (Int c') → r = r' ∧ c = c'.
Proof.
  unfold key. simpl. intros Heq.
  apply append_comma_inj in Heq as [Hr Hc];
    [|apply pretty_Z_comma_free..].
  split; by apply (inj pretty).
Qed.

(** ** Clicks *)

Lemma inBounds_same_grid h L L' r c :
  grid L' = grid L → inBounds h L' r c = inBounds h L r c.
Proof. unfold inBounds, cols, rows. by intros ->. Qed.

Lemma handleClick_in h L x y :
  inBounds h L (floor_div y (ts L)) (floor_div x (ts L)) = Normal true →
  handleClick h L x y =
    Normal (mkLevel (grid L) (ts L) (start L)
      (let k := key (floor_div y (ts L)) (floor_div x (ts L)) in
       if bool_decide (k ∈ clickedTiles L)
       then clickedTiles L ∖ {[k]} else clickedTiles L ∪ {[k]})).
Proof.
  intros Hin. unfold handleClick. rewrite Hin. simpl. by case_bool_decide.
Qed.

Lemma handleClick_out h L x y :
  inBounds h L (floor_div y (ts L)) (floor_div x (ts L)) = Normal false →
  handleClick h L x y = Normal L.
Proof. intros Hout. unfold handleClick. by rewrite Hout. Qed.

(** The bounds test of a click, in terms of the pixel and the tile size. *)
Lemma inBounds_click (h : heap) (L : Level) (mouseX mouseY : Z) :
  ∃ b : bool,
    inBounds h L (floor_div mouseY (ts L)) (floor_div mouseX (ts L)) = Normal b ∧
    (b = true ↔
       ts L ≠ 0 ∧
       0 ≤ mouseY `div` ts L < Z.of_nat (rows L) ∧
       ∃ n, cols h L = Normal n ∧ 0 ≤ mouseX `div` ts L < Z.of_nat n).
Proof.
  destruct (decide (ts L = 0)) as [Hts|Hts].
  - exists false. split; [|split; [done|by intros [? _]]].
    destruct (inBounds_total h L (floor_div mouseY (ts L))
                (floor_div mouseX (ts L))) as [[] Hb]; [|done].
    destruct (inBounds_true_Int _ _ _ _ Hb) as (zr & _ & Hr & _).
    rewrite Hts in Hr. by destruct (floor_div_zero mouseY zr).
  - unfold floor_div. rewrite !decide_False by done.
    destruct (inBounds_Int h L (mouseY `div` ts L) (mouseX `div` ts L))
      as (b & Hb & Hiff).
    exists b. split; [done|]. rewrite Hiff. split; [by intros [? ?]|].
    by intros (_ & ? & ?).
Qed.

(** C3. For every pixel coordinate [(mouseX, mouseY)], [handleClick]
    returns normally and targets the cell with column
    [floor(mouseX / tileSize)] and row [floor(mouseY / tileSize)]: with a
    tile size other than zero these are the integers [mouseX div ts] and
    [mouseY div ts], the floors of the quotients, and the cell is in
    bounds exactly when [0 <= mouseY div ts < rows()] and
    [0 <= mouseX div ts < cols()]; with a tile size of zero no cell is in
    bounds.  When the cell is in bounds its membership in [clickedTiles]
    is toggled, no other key and no other cell changes its membership,
    and the grid, tile size and start are kept; when it is not in bounds
    the whole Level is unchanged. *)
Theorem handleClick_targets_cell (h : heap) (L : Level) (mouseX mouseY : Z) :
  ∃ (b : bool) (L' : Level),
    inBounds h L (floor_div mouseY (ts L)) (floor_div mouseX (ts L)) = Normal b ∧
    handleClick h L mouseX mouseY = Normal L' ∧
    grid L' = grid L ∧ ts L' = ts L ∧ start L' = start L ∧
    (if b then
      (key (floor_div mouseY (ts L)) (floor_div mouseX (ts L)) ∈ clickedTiles L'
       ↔ key (floor_div mouseY (ts L)) (floor_div mouseX (ts L)) ∉ clickedTiles L) ∧
      (∀ k, k ≠ key (floor_div mouseY (ts L)) (floor_div mouseX (ts L)) →
            k ∈ clickedTiles L' ↔ k ∈ clickedTiles L) ∧
      (∀ r c : Z,
         (Int r, Int c) ≠ (floor_div mouseY (ts L), floor_div mouseX (ts L)) →
         key (Int r) (Int c) ∈ clickedTiles L' ↔
         key (Int r) (Int c) ∈ clickedTiles L)
    else L' = L) ∧
    (ts L ≠ 0 →
       floor_div mouseX (ts L) = Int (mouseX `div` ts L) ∧
       floor_div mouseY (ts L) = Int (mouseY `div` ts L)) ∧
    (0 < ts L →
       ts L * (mouseX `div` ts L) ≤ mouseX < ts L * (mouseX `div` ts L + 1) ∧
       ts L * (mouseY `div` ts L) ≤ mouseY < ts L * (mouseY `div` ts L + 1)) ∧
    (ts L < 0 →
       ts L * (mouseX `div` ts L + 1) < mouseX ≤ ts L * (mouseX `div` ts L) ∧
       ts L * (mouseY `div` ts L + 1) < mouseY ≤ ts L * (mouseY `div` ts L)) ∧
    (b = true ↔
       ts L ≠ 0 ∧
       0 ≤ mouseY `div` ts L < Z.of_nat (rows L) ∧
       ∃ n, cols h L = Normal n ∧ 0 ≤ mouseX `div` ts L < Z.of_nat n) ∧
    (b = true →
       (key (Int (mouseY `div` ts L)) (Int (mouseX `div` ts L)) ∈ clickedTiles L'
        ↔ key (Int (mouseY `div` ts L)) (Int (mouseX `div` ts L))
            ∉ clickedTiles L) ∧
       ∀ r c : Z, (r, c) ≠ (mouseY `div` ts L, mouseX `div` ts L) →
         key (Int r) (Int c) ∈ clickedTiles L' ↔
         key (Int r) (Int c) ∈ clickedTiles L).
Proof.
  destruct (inBounds_click h L mouseX mouseY) as (b & Hb & Hiff).
  assert (Hfloor : ts L ≠ 0 →
    floor_div mouseX (ts L) = Int (mouseX `div` ts L) ∧
    floor_div mouseY (ts L) = Int (mouseY `div` ts L)).
  { intros Hts. unfold floor_div. by rewrite !decide_False by done. }
  assert (Hpos : 0 < ts L →
    ts L * (mouseX `div` ts L) ≤ mouseX < ts L * (mouseX `div` ts L + 1) ∧
    ts L * (mouseY `div` ts L) ≤ mouseY < ts L * (mouseY `div` ts L + 1)).
  { intros Hts.
    pose proof (Z.div_mod mouseX (ts L) ltac:(lia)).
    pose proof (Z.mod_pos_bound mouseX (ts L) Hts).
    pose proof (Z.div_mod mouseY (ts L) ltac:(lia)).
    pose proof (Z.mod_pos_bound mouseY (ts L) Hts). lia. }
  assert (Hneg : ts L < 0 →
    ts L * (mouseX `div` ts L + 1) < mouseX ≤ ts L * (mouseX `div` ts L) ∧
    ts L * (mouseY `div` ts L + 1) < mouseY ≤ ts L * (mouseY `div` ts L)).
  { intros Hts.
    pose proof (Z.div_mod mouseX (ts L) ltac:(lia)).
    pose proof (Z.mod_neg_bound mouseX (ts L) Hts).
    pose proof (Z.div_mod mouseY (ts L) ltac:(lia)).
    pose proof (Z.mod_neg_bound mouseY (ts L) Hts). lia. }
  exists b. destruct b.
  - eexists. split; [done|]. split; [by apply handleClick_in|]. simpl.
    split; [done|]. split; [done|]. split; [done|].
    destruct Hiff as [Hiff _]. destruct (Hiff eq_refl) as [Hts Hcell].
    destruct (Hfloor Hts) as [Hx Hy]. rewrite Hx, Hy.
    set (k := key _ _).
    assert (Hother : ∀ k', k' ≠ k →
      k' ∈ (if bool_decide (k ∈ clickedTiles L)
            then clickedTiles L ∖ {[k]} else clickedTiles L ∪ {[k]})
      ↔ k' ∈ clickedTiles L).
    { intros k' Hne. case_bool_decide; set_solver. }
    assert (Hflip :
      k ∈ (if bool_decide (k ∈ clickedTiles L)
           then clickedTiles L ∖ {[k]} else clickedTiles L ∪ {[k]})
      ↔ k ∉ clickedTiles L).
    { case_bool_decide; set_solver. }
    assert (Hcells : ∀ r c : Z,
      (r, c) ≠ (mouseY `div` ts L, mouseX `div` ts L) →
      key (Int r) (Int c) ∈
        (if bool_decide (k ∈ clickedTiles L)
         then clickedTiles L ∖ {[k]} else clickedTiles L ∪ {[k]})
      ↔ key (Int r) (Int c) ∈ clickedTiles L).
    { intros r c Hne. apply Hother. subst k. intros Heq.
      apply key_inj in Heq as [-> ->]. done. }
    split; [|split; [done|split; [done|split; [done|split; [done|]]]]].
    + split; [done|]. split; [done|]. intros r c Hne. apply Hcells.
      intros [= -> ->]. done.
    + intros _. split; [done|]. done.
  - exists L. split; [done|]. split; [by apply handleClick_out|].
    do 3 (split; [done|]). split; [done|]. split; [done|].
    split; [done|]. split; [done|]. split; [done|]. done.
Qed.

(** A click at pixel (40, 70) of the constructed maze, 32 pixels per
    tile, paints the key of row 2, column 1. *)
Lemma handleClick_targets_cell_witness :
  ∃ L', handleClick built_maze.1 built_maze.2 40 70 = Normal L' ∧
        floor_div 40 32 = Int 1 ∧ floor_div 70 32 = Int 2 ∧
        "2,1" ∈ clickedTiles L' ∧
        (∀ r c : Z, (r, c) ≠ (2, 1) → key (Int r) (Int c) ∉ clickedTiles L').
Proof.
  destruct (handleClick_targets_cell built_maze.1 built_maze.2 40 70)
    as (b & L' & _ & Hclick & _ & _ & _ & _ & Hfloor & _ & _ & Hiff & Hpaint).
  exists L'. split; [exact Hclick|].
  destruct (Hfloor ltac:(by vm_compute)) as [Hx Hy].
  split; [exact Hx|]. split; [exact Hy|].
  assert (Hb : b = true).
  { apply Hiff. split; [by vm_compute|]. split; [by vm_compute|].
    exists 4%nat. split; by vm_compute. }
  destruct (Hpaint Hb) as [Hflip Hother]. split.
  - apply Hflip. vm_compute. set_solver.
  - intros r c Hne Hin. apply (Hother r c Hne) in Hin.
    vm_compute in Hin. set_solver.
Defined.

(** C2. For every Level state and every pixel coordinate that maps to an
    in-bounds cell, calling [handleClick] twice with the same coordinates
    leaves [clickedTiles], and with it the whole Level, as before the first
    call; after one click the cell is painted exactly when it was not
    before. *)
Theorem handleClick_twice (h : heap) (L : Level) (mouseX mouseY : Z) :
  inBounds h L (floor_div mouseY (ts L)) (floor_div mouseX (ts L)) = Normal true →
  ∃ L1 L2 : Level,
    handleClick h L mouseX mouseY = Normal L1 ∧
    handleClick h L1 mouseX mouseY = Normal L2 ∧
    clickedTiles L2 = clickedTiles L ∧ L2 = L ∧
    (key (floor_div mouseY (ts L)) (floor_div mouseX (ts L)) ∈ clickedTiles L1
     ↔ key (floor_div mouseY (ts L)) (floor_div mouseX (ts L)) ∉ clickedTiles L).
Proof.
  intros Hin. eexists _, _.
  split; [by apply handleClick_in|].
  split; [apply handleClick_in; by rewrite (inBounds_same_grid h L)|].
  simpl. set (k := key _ _).
  assert (Hset :
    (let s1 := if bool_decide (k ∈ clickedTiles L)
               then clickedTiles L ∖ {[k]} else clickedTiles L ∪ {[k]} in
     if bool_decide (k ∈ s1) then s1 ∖ {[k]} else s1 ∪ {[k]})
    = clickedTiles L).
  { simpl. apply set_eq. intros k'.
    destruct (decide (k' = k)) as [->|];
      repeat case_bool_decide; set_solver. }
  split; [exact Hset|]. split.
  - destruct L as [g t s cl]. simpl in *. by rewrite Hset.
  - case_bool_decide; set_solver.
Qed.

(** Two clicks at pixel (40, 70) of the maze, which is row 2, column 1. *)
Lemma handleClick_twice_witness :
  ∃ L1 L2 : Level,
    handleClick maze.1 maze_level 40 70 = Normal L1 ∧
    handleClick maze.1 L1 40 70 = Normal L2 ∧
    clickedTiles L2 = clickedTiles maze_level ∧ L2 = maze_level ∧
    (key (floor_div 70 (ts maze_level)) (floor_div 40 (ts maze_level))
       ∈ clickedTiles L1
     ↔ key (floor_div 70 (ts maze_level)) (floor_div 40 (ts maze_level))
       ∉ clickedTiles maze_level).
Proof.
  apply (handleClick_twice maze.1 maze_level 40 70).
  vm_compute. reflexivity.
Defined.

(** ** The constructor *)

Lemma deref_insert_eq (h : heap) l arr : deref (<[l := arr]> h) l = arr.
Proof. unfold deref. by rewrite lookup_insert_eq. Qed.

Lemma deref_insert_ne (h : heap) l l' arr :
  l ≠ l' → deref (<[l := arr]> h) l' = deref h l'.
Proof. intros. unfold deref. by rewrite lookup_insert_ne. Qed.

Lemma array_set_in_range arr (i : nat) v :
  (i < length arr)%nat → array_set arr i v = <[i := v]> arr.
Proof. intros. unfold array_set. by rewrite decide_True. Qed.

(** The constructor returns normally.  Without a start tile the store is
    left alone; with one, the row that holds it is overwritten in place at
    that column. *)
Lemma new_Level_eq (g : list loc) (t : Z) (h : heap) :
  ∃ res, findStart h (mkLevel g t None ∅) = Normal res ∧
    match res with
    | None => new_Level g t h = Normal (h, mkLevel g t None ∅)
    | Some p =>
        ∃ l, g !! pos_r p = Some l ∧
             deref h l !! pos_c p = Some (Num 2) ∧
             new_Level g t h =
               Normal (<[l := <[pos_c p := Num 0]> (deref h l)]> h,
                       mkLevel g t (Some p) ∅)
    end.
Proof.
  destruct (findStart_spec h (mkLevel g t None ∅)) as (res & Hres & Hspec).
  exists res. split; [done|]. unfold new_Level. rewrite Hres. simpl.
  destruct res as [p|]; [|done].
  destruct Hspec as [[_ Hp] _]. unfold holds_start, cell in Hp. simpl in Hp.
  destruct (g !! pos_r p) as [l|] eqn:Hl; simpl in Hp; [|done].
  exists l. split; [done|]. split; [done|].
  unfold grid_set. rewrite Hl. simpl.
  rewrite array_set_in_range; [done|]. by apply lookup_lt_Some in Hp.
Qed.

Lemma new_Level_Normal (g : list loc) (t : Z) (h : heap) :
  ∃ h' L, new_Level g t h = Normal (h', L).
Proof.
  destruct (new_Level_eq g t h) as ([p|] & _ & Hnew).
  - destruct Hnew as (l & _ & _ & ->). eauto.
  - rewrite Hnew. eauto.
Qed.

Lemma new_Level_fields g t h h' L :
  new_Level g t h = Normal (h', L) →
  grid L = g ∧ ts L = t ∧ clickedTiles L = ∅.
Proof.
  destruct (new_Level_eq g t h) as ([p|] & _ & Hnew).
  - destruct Hnew as (l & _ & _ & ->). by intros [= <- <-].
  - rewrite Hnew. by intros [= <- <-].
Qed.

(** Only rows of the grid handed to the constructor are written. *)
Lemma new_Level_frame g t h h' L l :
  new_Level g t h = Normal (h', L) → l ∉ g → h' !! l = h !! l.
Proof.
  destruct (new_Level_eq g t h) as ([p|] & _ & Hnew).
  - destruct Hnew as (l0 & Hl0 & _ & ->). intros [= <- <-] Hl.
    apply lookup_insert_ne. intros ->. apply Hl.
    by eapply list_elem_of_lookup_2.
  - rewrite Hnew. by intros [= <- <-].
Qed.

(** The constructor changes the length of no array. *)
Lemma new_Level_length g t h h' L l :
  new_Level g t h = Normal (h', L) →
  length (deref h' l) = length (deref h l).
Proof.
  destruct (new_Level_eq g t h) as ([p|] & _ & Hnew).
  - destruct Hnew as (l0 & _ & _ & ->). intros [= <- <-].
    destruct (decide (l0 = l)) as [->|].
    + by rewrite deref_insert_eq, length_insert.
    + by rewrite deref_insert_ne.
  - rewrite Hnew. by intros [= <- <-].
Qed.

Lemma new_Level_dom g t h h' L :
  new_Level g t h = Normal (h', L) → dom h ⊆ dom h'.
Proof.
  destruct (new_Level_eq g t h) as ([p|] & _ & Hnew).
  - destruct Hnew as (l0 & _ & _ & ->). intros [= <- <-].
    rewrite dom_insert_L. set_solver.
  - rewrite Hnew. by intros [= <- <-].
Qed.

(** C8. The constructor returns, and if it discovered a start tile then
    the grid it stores holds 0 (floor) at the start coordinates: [tileAt]
    reads 0 there, [isWall] and [isGoal] are false there, and the recorded
    start no longer points to a cell holding value 2. *)
Theorem new_Level_start_is_floor (g : list loc) (t : Z) (h : heap) :
  ∃ h' L, new_Level g t h = Normal (h', L) ∧
    ∀ p, start L = Some p →
      cell h' L (pos_r p) (pos_c p) = Some (Num 0) ∧
      tileAt h' L (of_nat (pos_r p)) (of_nat (pos_c p)) = Normal (Num 0) ∧
      isWall h' L (of_nat (pos_r p)) (of_nat (pos_c p)) = Normal false ∧
      isGoal h' L (of_nat (pos_r p)) (of_nat (pos_c p)) = Normal false ∧
      ¬ holds_start h' L p.
Proof.
  destruct (new_Level_eq g t h) as ([p|] & _ & Hnew).
  - destruct Hnew as (l & Hl & Hc & ->). eexists _, _. split; [done|].
    simpl. intros ? [= <-].
    assert (Hcell : cell (<[l := <[pos_c p := Num 0]> (deref h l)]> h)
                      (mkLevel g t (Some p) ∅) (pos_r p) (pos_c p)
                    = Some (Num 0)).
    { unfold cell. simpl. rewrite Hl. simpl. rewrite deref_insert_eq.
      apply list_lookup_insert_eq. by apply lookup_lt_Some in Hc. }
    assert (Hget : tileAt (<[l := <[pos_c p := Num 0]> (deref h l)]> h)
                     (mkLevel g t (Some p) ∅)
                     (of_nat (pos_r p)) (of_nat (pos_c p)) = Normal (Num 0)).
    { unfold tileAt. rewrite grid_get_of_nat, Hcell; [done|].
      unfold rows. simpl. by apply lookup_lt_Some in Hl. }
    split; [done|]. split; [done|]. unfold isWall, isGoal. rewrite Hget.
    split; [done|]. split; [done|].
    unfold holds_start. by rewrite Hcell.
  - rewrite Hnew. eexists _, _. split; [done|]. by simpl.
Qed.

(** ** Copies of the raw grids *)

Lemma alloc_spec (h : heap) arr h' l :
  alloc h arr = (h', l) → (l ∉ dom h) ∧ h' = <[l := arr]> h.
Proof. unfold alloc. intros [= <- <-]. split; [apply is_fresh|done]. Qed.

Lemma deref_agree (h h' : heap) l : h' !! l = h !! l → deref h' l = deref h l.
Proof. unfold deref. by intros ->. Qed.

(** [copyGrid] allocates one new array per row, with the same elements,
    and writes to no array that existed. *)
Lemma copyGrid_spec (g : list loc) (h : heap) h' g' :
  allocated h g → copyGrid g h = (h', g') →
  length g' = length g ∧
  (∀ l, l ∈ dom h → h' !! l = h !! l) ∧
  dom h ⊆ dom h' ∧
  (∀ l', l' ∈ g' → (l' ∉ dom h) ∧ l' ∈ dom h') ∧
  (∀ i l l', g !! i = Some l → g' !! i = Some l' → deref h' l' = deref h l) ∧
  NoDup g'.
Proof.
  revert h h' g'. induction g as [|l g IH]; intros h h' g' Halloc.
  { intros [= <- <-]. split; [done|]. split; [done|]. split; [done|].
    split; [|split; [done|constructor]].
    intros l' Hl'. by apply elem_of_nil in Hl'. }
  cbn [copyGrid].
  destruct (alloc h (deref h l)) as [h1 l1] eqn:Ha.
  destruct (copyGrid g h1) as [h2 rest] eqn:Hc. intros [= <- <-].
  apply alloc_spec in Ha as [Hfresh ->].
  assert (Hl : l ∈ dom h) by (apply Halloc; left).
  assert (Hdom1 : dom h ⊆ dom (<[l1 := deref h l]> h))
    by (rewrite dom_insert_L; set_solver).
  assert (Hrest : allocated (<[l1 := deref h l]> h) g).
  { intros x Hx. apply Hdom1, Halloc. by right. }
  destruct (IH _ _ _ Hrest Hc) as (Hlen & Hsame & Hdom & Hnew & Helem & Hnodup).
  assert (Hl1 : l1 ∈ dom (<[l1 := deref h l]> h))
    by (rewrite dom_insert_L; set_solver).
  assert (Hold : ∀ x, x ∈ dom h → h2 !! x = h !! x).
  { intros x Hx. rewrite Hsame by set_solver.
    apply lookup_insert_ne. by intros ->. }
  split; [simpl; by rewrite Hlen|]. split; [exact Hold|].
  split; [set_solver|]. split; [|split].
  - intros x Hx. apply elem_of_cons in Hx as [->|Hin].
    + split; [done|]. by apply Hdom.
    + apply Hnew in Hin as [Hin ?]. split; [set_solver|done].
  - intros [|i] x x'; simpl.
    + intros [= <-] [= <-]. unfold deref at 1.
      by rewrite Hsame, lookup_insert_eq.
    + intros Hx Hx'. rewrite (Helem i x x' Hx Hx').
      apply deref_insert_ne. intros ->. apply Hfresh, Halloc. right.
      by eapply list_elem_of_lookup_2.
  - constructor; [|done]. intros Hin. by apply Hnew in Hin as [Hin _].
Qed.

(** Building the levels returns normally and leaves every array that
    existed as it was. *)
Lemma build_levels_spec (data : list (list loc)) (h : heap) :
  Forall (allocated h) data →
  ∃ h' ls, build_levels data h = Normal (h', ls) ∧
    length ls = length data ∧
    dom h ⊆ dom h' ∧
    (∀ l, l ∈ dom h → h' !! l = h !! l) ∧
    Forall (λ L, clickedTiles L = ∅) ls.
Proof.
  revert h. induction data as [|g data IH]; intros h Hdata.
  { exists h, []. repeat split; try done. }
  cbn [build_levels]. apply Forall_cons in Hdata as [Hg Hdata].
  destruct (copyGrid g h) as [h1 copy] eqn:Hc.
  destruct (copyGrid_spec _ _ _ _ Hg Hc)
    as (_ & Hsame1 & Hdom1 & Hnew & _ & _).
  destruct (new_Level_Normal copy TS h1) as (h2 & L & HL). rewrite HL. simpl.
  pose proof (new_Level_dom _ _ _ _ _ HL) as Hdom2.
  destruct (IH h2) as (h3 & ls & Hls & Hlen & Hdom3 & Hsame3 & Hempty).
  { eapply Forall_impl; [exact Hdata|]. intros g0 Hg0 l Hl.
    apply Hdom2, Hdom1, Hg0, Hl. }
  rewrite Hls. simpl. exists h3, (L :: ls). split; [done|].
  split; [simpl; by rewrite Hlen|]. split; [set_solver|]. split.
  - intros l Hl. rewrite Hsame3 by set_solver.
    rewrite (new_Level_frame _ _ _ _ _ l HL).
    + by apply Hsame1.
    + intros Hin. by apply Hnew in Hin as [Hin _].
  - constructor; [|done]. by apply new_Level_fields in HL as (_ & _ & ?).
Qed.

(** ** The painted set stays within the grid *)

Lemma inBounds_same_lengths h h' L r c :
  (∀ l, length (deref h' l) = length (deref h l)) →
  inBounds h' L r c = inBounds h L r c.
Proof.
  intros Hlen. unfold inBounds, cols.
  destruct (index (grid L) (Int 0)); [|done]. by rewrite Hlen.
Qed.

Lemma handleClick_clicked_in_bounds h L mouseX mouseY L' :
  clicked_in_bounds h L → handleClick h L mouseX mouseY = Normal L' →
  clicked_in_bounds h L'.
Proof.
  intros Hinv Hclick.
  destruct (inBounds_total h L (floor_div mouseY (ts L))
              (floor_div mouseX (ts L))) as [[] Hb].
  - rewrite (handleClick_in _ _ _ _ Hb) in Hclick. injection Hclick as <-.
    destruct (inBounds_true_Int _ _ _ _ Hb) as (zr & zc & Hr & Hc).
    rewrite Hr, Hc in *. intros k Hk. simpl in Hk.
    destruct (decide (k = key (Int zr) (Int zc))) as [->|Hne].
    + exists zr, zc. split; [done|]. by rewrite (inBounds_same_grid h L).
    + destruct (Hinv k) as (r & c & -> & Hin);
        [case_bool_decide; set_solver|].
      exists r, c. split; [done|]. by rewrite (inBounds_same_grid h L).
  - rewrite (handleClick_out _ _ _ _ Hb) in Hclick. by injection Hclick as <-.
Qed.

Lemma inBounds_agree h h' L r c :
  (∀ l, l ∈ grid L → h' !! l = h !! l) →
  inBounds h' L r c = inBounds h L r c.
Proof.
  intros Hsame. unfold inBounds, cols. rewrite index_zero.
  destruct (grid L) as [|l0 g]; simpl; [done|].
  rewrite (deref_agree h h' l0); [done|]. apply Hsame. by left.
Qed.

(** C10. In every reachable Level state, every key in [clickedTiles] names
    an in-bounds cell of the grid: the set is empty after construction, a
    click only inserts the key of a cell that passed [inBounds], and the
    construction of other levels leaves the bounds of this one alone. *)
Theorem reachable_clicked_in_bounds (h : heap) (L : Level) :
  reachable h L → clicked_in_bounds h L.
Proof.
  induction 1 as [g t h h' L Hnew
                 |h L x y L' _ IH Hclick
                 |g t h h' L L2 _ IH Hnew
                 |g h h' g' L _ IH Hg HL Hcopy].
  - apply new_Level_fields in Hnew as (_ & _ & Hempty).
    intros k Hk. rewrite Hempty in Hk. by apply not_elem_of_empty in Hk.
  - by eapply handleClick_clicked_in_bounds.
  - intros k Hk. destruct (IH k Hk) as (r & c & -> & Hin).
    exists r, c. split; [done|].
    rewrite (inBounds_same_lengths h); [done|].
    intros l. by eapply new_Level_length.
  - intros k Hk. destruct (IH k Hk) as (r & c & -> & Hin).
    exists r, c. split; [done|].
    destruct (copyGrid_spec _ _ _ _ Hg Hcopy) as (_ & Hsame & _).
    rewrite (inBounds_agree h); [done|]. intros l Hl. by apply Hsame, HL.
Qed.

Lemma built_maze_eq : new_Level maze.2 TS maze.1 = Normal built_maze.
Proof. vm_compute. reflexivity. Qed.

(** The maze, constructed and clicked once. *)
Lemma reachable_clicked_in_bounds_witness :
  clicked_in_bounds built_maze.1 clicked_maze.
Proof.
  apply reachable_clicked_in_bounds.
  apply (reach_click built_maze.1 built_maze.2 40 70).
  - apply (reach_new maze.2 TS maze.1). vm_compute. reflexivity.
  - vm_compute. reflexivity.
Defined.

(** ** The sketch *)

Section sketch_properties.
Context {Player : Type}.
Context (new_Player : Z → Player) (setCell : Player → Z → Z → Player).

Implicit Types s : @Sketch Player.

Lemma loadLevel_frame idx s :
  store (loadLevel setCell idx s).1 = store s ∧
  levelsData (loadLevel setCell idx s).1 = levelsData s ∧
  levels (loadLevel setCell idx s).1 = levels s ∧
  li (loadLevel setCell idx s).1 = idx.
Proof.
  unfold loadLevel. simpl.
  destruct (index (levels s) idx) as [level|]; [|done].
  destruct (player s) as [p|]; [|done].
  destruct (start level); simpl;
    destruct (pixelWidth (store s) level); simpl; done.
Qed.

(** C4. Whenever [loadLevel(idx)] runs on a level of the array, the
    player is placed at the level's discovered start cell if [findStart]
    found one ([level.start] is non-null), and otherwise at the fallback
    cell row 1, column 1; these are the only two placements.  When
    [idx] names no level, or no player has been created, the call throws
    before any placement. *)
Theorem loadLevel_places_player s (idx : number) :
  match index (levels s) idx, player s with
  | Some level, Some p =>
      player (loadLevel setCell idx s).1 =
        Some (match start level with
              | Some st => setCell p (Z.of_nat (pos_r st)) (Z.of_nat (pos_c st))
              | None => setCell p 1 1
              end)
  | _, _ =>
      player (loadLevel setCell idx s).1 = player s ∧
      (loadLevel setCell idx s).2 = Throw TypeError
  end.
Proof.
  unfold loadLevel. simpl.
  destruct (index (levels s) idx) as [level|];
    destruct (player s) as [p|] eqn:Hp; simpl; rewrite ?Hp; try done.
  destruct (start level); simpl;
    destruct (pixelWidth (store s) level); simpl; done.
Qed.

(** C7. For every current level index [li] with at least one level
    loaded, [nextLevel] sets the active level index to [(li + 1)] modulo
    the number of levels: on the last level it wraps around to level 0,
    and the active index remains a valid index into the levels array,
    which is not changed. *)
Theorem nextLevel_wraps s (i : Z) :
  li s = Int i → 0 ≤ i → (0 < length (levels s))%nat →
  li (nextLevel setCell s).1 = Int ((i + 1) `mod` Z.of_nat (length (levels s))) ∧
  0 ≤ (i + 1) `mod` Z.of_nat (length (levels s)) < Z.of_nat (length (levels s)) ∧
  levels (nextLevel setCell s).1 = levels s ∧
  is_Some (index (levels (nextLevel setCell s).1) (li (nextLevel setCell s).1)) ∧
  (i = Z.of_nat (length (levels s)) - 1 → li (nextLevel setCell s).1 = Int 0).
Proof.
  intros Hli Hi Hlen. unfold nextLevel.
  destruct (loadLevel_frame
    (num_rem (num_add (li s) (Int 1)) (of_nat (length (levels s)))) s)
    as (_ & _ & Hlevels & Hidx).
  rewrite Hidx, Hlevels, Hli. simpl. unfold of_nat.
  rewrite decide_False by lia. rewrite Z.rem_mod_nonneg by lia.
  pose proof (Z.mod_pos_bound (i + 1) (Z.of_nat (length (levels s)))
                ltac:(lia)) as Hbound.
  split; [done|]. split; [done|]. split; [done|]. split.
  - by apply index_Int_lt.
  - intros ->. f_equal. replace (Z.of_nat (length (levels s)) - 1 + 1)
      with (Z.of_nat (length (levels s))) by lia.
    apply Z.mod_same. lia.
Qed.

Lemma setup_frame s :
  Forall (allocated (store s)) (levelsData s) →
  levelsData (setup new_Player setCell s).1 = levelsData s ∧
  length (levels (setup new_Player setCell s).1) = length (levelsData s) ∧
  (∀ l, l ∈ dom (store s) →
        store (setup new_Player setCell s).1 !! l = store s !! l) ∧
  Forall (λ L, clickedTiles L = ∅) (levels (setup new_Player setCell s).1).
Proof.
  intros Hdata. unfold setup.
  destruct (build_levels_spec _ _ Hdata)
    as (h' & ls & -> & Hlen & _ & Hsame & Hempty).
  destruct (loadLevel_frame (Int 0)
              (set_player (new_Player TS) (set_levels h' ls s)))
    as (-> & -> & -> & _).
  done.
Qed.

(** C9. Constructing the Level objects in [setup] never mutates the raw
    loaded grid data.  For every 2D array [g], [copyGrid(g)] returns a
    grid elementwise equal to [g] that shares no row array with [g], so
    the constructor's normalization of the start tile writes only to the
    copy and the original grid is unchanged; after [setup] every array
    that existed before it, the rows of the raw grids among them, holds
    what it held. *)
Theorem copyGrid_protects_raw_data s (g : list loc) :
  allocated (store s) g →
  Forall (allocated (store s)) (levelsData s) →
  (∃ h1 copy h2 L,
     copyGrid g (store s) = (h1, copy) ∧
     length copy = length g ∧
     (∀ i l l', g !! i = Some l → copy !! i = Some l' →
                deref h1 l' = deref (store s) l) ∧
     (∀ l, l ∈ copy → l ∉ g) ∧
     new_Level copy TS h1 = Normal (h2, L) ∧
     (∀ l, l ∈ dom (store s) → h2 !! l = store s !! l) ∧
     (∀ l, l ∈ g → deref h2 l = deref (store s) l)) ∧
  levelsData (setup new_Player setCell s).1 = levelsData s ∧
  length (levels (setup new_Player setCell s).1) = length (levelsData s) ∧
  (∀ l, l ∈ dom (store s) →
        store (setup new_Player setCell s).1 !! l = store s !! l) ∧
  Forall (λ g0, ∀ l, l ∈ g0 →
            deref (store (setup new_Player setCell s).1) l = deref (store s) l)
         (levelsData s).
Proof.
  intros Hg Hdata. split.
  - destruct (copyGrid g (store s)) as [h1 copy] eqn:Hc.
    destruct (copyGrid_spec _ _ _ _ Hg Hc)
      as (Hlen & Hsame & _ & Hnew & Helem & _).
    destruct (new_Level_Normal copy TS h1) as (h2 & L & HL).
    assert (Hfresh : ∀ l, l ∈ copy → l ∉ g).
    { intros l Hl Hin. apply Hnew in Hl as [Hl _]. by apply Hl, Hg. }
    assert (Hold : ∀ l, l ∈ dom (store s) → h2 !! l = store s !! l).
    { intros l Hl. rewrite (new_Level_frame _ _ _ _ _ l HL).
      - by apply Hsame.
      - intros Hin. by apply Hnew in Hin as [Hin _]. }
    exists h1, copy, h2, L. split; [done|]. split; [done|].
    split; [done|]. split; [done|]. split; [done|]. split; [done|].
    intros l Hl. by apply deref_agree, Hold, Hg.
  - destruct (setup_frame s Hdata) as (Hraw & Hlen & Hsame & _).
    split; [done|]. split; [done|]. split; [done|].
    eapply Forall_impl; [exact Hdata|]. intros g0 Hg0 l Hl.
    by apply deref_agree, Hsame, Hg0.
Qed.

(** Painting in the running sketch: after [setup], through clicks and
    level changes, every level keeps its painted keys in bounds. *)
Lemma setup_all_clicked_in_bounds s :
  Forall (allocated (store s)) (levelsData s) →
  all_clicked_in_bounds (setup new_Player setCell s).1.
Proof.
  intros Hdata. destruct (setup_frame s Hdata) as (_ & _ & _ & Hempty).
  unfold all_clicked_in_bounds. eapply Forall_impl; [exact Hempty|].
  intros L HL k Hk. rewrite HL in Hk. by apply not_elem_of_empty in Hk.
Qed.

Lemma mousePressed_all_clicked_in_bounds s mouseX mouseY :
  all_clicked_in_bounds s →
  all_clicked_in_bounds (mousePressed mouseX mouseY s).1.
Proof.
  intros Hinv. unfold mousePressed.
  destruct (index (levels s) (li s)) as [level|] eqn:Hidx; [|done].
  destruct (handleClick (store s) level mouseX mouseY) as [level'|] eqn:Hc;
    [|done].
  unfold all_clicked_in_bounds. simpl.
  destruct (li s) as [i| | |]; try done.
  apply index_Int_Some in Hidx as [_ Hidx].
  apply Forall_insert; [done|].
  eapply handleClick_clicked_in_bounds; [|exact Hc].
  eapply Forall_lookup_1; [exact Hinv|exact Hidx].
Qed.

Lemma nextLevel_all_clicked_in_bounds s :
  all_clicked_in_bounds s → all_clicked_in_bounds (nextLevel setCell s).1.
Proof.
  unfold all_clicked_in_bounds, nextLevel.
  destruct (loadLevel_frame
    (num_rem (num_add (li s) (Int 1)) (of_nat (length (levels s)))) s)
    as (-> & _ & -> & _).
  done.
Qed.

Lemma running_all_clicked_in_bounds s :
  running new_Player setCell s → all_clicked_in_bounds s.
Proof.
  induction 1 as [s Hdata|s x y _ IH|s _ IH].
  - by apply setup_all_clicked_in_bounds.
  - by apply mousePressed_all_clicked_in_bounds.
  - by apply nextLevel_all_clicked_in_bounds.
Qed.
End sketch_properties.

(** From the last of the two demo levels, [nextLevel] goes back to 0. *)
Lemma nextLevel_wraps_witness :
  li demo_last_level = Int 1 ∧ 0 ≤ 1 ∧
  (0 < length (levels demo_last_level))%nat ∧
  li (nextLevel demo_setCell demo_last_level).1 = Int 0.
Proof.
  split; [reflexivity|]. split; [lia|].
  split; [vm_compute; lia|].
  eapply (nextLevel_wraps demo_setCell demo_last_level 1);
    [reflexivity|lia|vm_compute; lia|vm_compute; reflexivity].
Defined.

(** After [setup] on the demo sketch the rows of the raw maze hold what
    they held. *)
Lemma copyGrid_protects_raw_data_witness :
  allocated (store demo_sketch) maze.2 ∧
  Forall (allocated (store demo_sketch)) (levelsData demo_sketch) ∧
  (∀ l, l ∈ maze.2 →
     deref (store (setup demo_new_Player demo_setCell demo_sketch).1) l
     = deref (store demo_sketch) l).
Proof.
  assert (Hmaze : allocated (store demo_sketch) maze.2).
  { intros l Hl. apply elem_of_dom.
    repeat (apply elem_of_cons in Hl as [->|Hl]; [by vm_compute; eexists|]).
    by apply elem_of_nil in Hl. }
  assert (Hdata : Forall (allocated (store demo_sketch)) (levelsData demo_sketch)).
  { repeat constructor; exact Hmaze. }
  split; [exact Hmaze|]. split; [exact Hdata|].
  destruct (copyGrid_protects_raw_data demo_new_Player demo_setCell
              demo_sketch maze.2 Hmaze Hdata) as (_ & _ & _ & _ & Hall).
  apply Forall_cons in Hall as [Hfirst _]. exact Hfirst.
Defined.

(* ===================================================================== *)
(** * Worked examples                                                    *)
(* ===================================================================== *)

Example findStart_maze :
  findStart maze.1 maze_level = Normal (Some (mkCell 1 2)).
Proof. vm_compute. reflexivity. Qed.

(** The constructor writes into the array it was handed: the start tile
    of the maze is gone from the store. *)
Example new_Level_maze :
  start built_maze.2 = Some (mkCell 1 2) ∧
  cell maze.1 maze_level 1 2 = Some (Num 2) ∧
  cell built_maze.1 built_maze.2 1 2 = Some (Num 0) ∧
  isGoal built_maze.1 built_maze.2 (Int 1) (Int 3) = Normal true ∧
  isWall built_maze.1 built_maze.2 (Int 0) (Int 0) = Normal true.
Proof. repeat split; vm_compute; reflexivity. Qed.

Example key_of_cell : key (Int 2) (Int 1) = "2,1".
Proof. vm_compute. reflexivity. Qed.

Example click_paints : elements (clickedTiles clicked_maze) = ["2,1"].
Proof. vm_compute. reflexivity. Qed.

Example click_outside :
  handleClick built_maze.1 built_maze.2 130 10 = Normal built_maze.2 ∧
  handleClick built_maze.1 built_maze.2 (-1) 10 = Normal built_maze.2.
Proof. split; vm_compute; reflexivity. Qed.

(** A tile size of zero sends every pixel to a non-finite coordinate. *)
Example click_zero_tile_size :
  floor_div 5 0 = PosInf ∧ floor_div 0 0 = NaN ∧
  handleClick maze.1 (mkLevel maze.2 0 None ∅) 5 0
  = Normal (mkLevel maze.2 0 None ∅).
Proof. repeat split; vm_compute; reflexivity. Qed.

(** [setup] on the demo data: two levels, the player on the start cell of
    the first, the canvas sized to it, and the raw grid as it was loaded,
    start tile included. *)
Example setup_demo :
  let s := (setup demo_new_Player demo_setCell demo_sketch).1 in
  (setup demo_new_Player demo_setCell demo_sketch).2 = Normal () ∧
  length (levels s) = 2%nat ∧ li s = Int 0 ∧ player s = Some (1, 2) ∧
  canvas s = Some (128, 96) ∧
  cell (store s) maze_level 1 2 = Some (Num 2).
Proof. repeat split; vm_compute; reflexivity. Qed.

(** A level without a start tile sends the player to the fallback cell;
    an index past the array throws with the player where it was. *)
Example loadLevel_fallback :
  let s := mkSketch ragged_narrow.1 [] [ragged_narrow_level] (Int 0)
             (Some (7, 7)) None in
  player (loadLevel demo_setCell (Int 0) s).1 = Some (1, 1) ∧
  (loadLevel demo_setCell (Int 0) s).2 = Normal () ∧
  player (loadLevel demo_setCell (Int 1) s).1 = Some (7, 7) ∧
  (loadLevel demo_setCell (Int 1) s).2 = Throw TypeError.
Proof. repeat split; vm_compute; reflexivity. Qed.

(** Without levels the next index is [NaN] and [loadLevel] throws. *)
Example nextLevel_no_levels :
  let s := @mkSketch (Z * Z) ∅ [] [] (Int 0) (Some (0, 0)) None in
  li (nextLevel demo_setCell s).1 = NaN ∧
  (nextLevel demo_setCell s).2 = Throw TypeError.
Proof. split; vm_compute; reflexivity. Qed.

(* ===================================================================== *)
(** * Further properties of level.js                                     *)
(* ===================================================================== *)

(** ** Queries outside the grid *)

(** X1. [tileAt(r, c)] throws a TypeError exactly when [r] is not the
    index of a row.  On a row of the grid it returns the stored tile, and
    for a column the row does not have it returns [undefined] without
    throwing, so that [isWall] and [isGoal] are both false there. *)
Theorem tileAt_outside (h : heap) (L : Level) (r c : Z) :
  (tileAt h L (Int r) (Int c) = Throw TypeError ↔
     ¬ (0 ≤ r < Z.of_nat (rows L))) ∧
  (∀ l, 0 ≤ r → grid L !! Z.to_nat r = Some l →
     (∀ v, 0 ≤ c → deref h l !! Z.to_nat c = Some v →
           tileAt h L (Int r) (Int c) = Normal v) ∧
     (¬ (0 ≤ c < Z.of_nat (length (deref h l))) →
        tileAt h L (Int r) (Int c) = Normal Undefined ∧
        isWall h L (Int r) (Int c) = Normal false ∧
        isGoal h L (Int r) (Int c) = Normal false)).
Proof.
  unfold isWall, isGoal, tileAt, grid_get. split.
  - destruct (index (grid L) (Int r)) as [l|] eqn:Hl.
    + split; [done|]. intros Hr. destruct Hr.
      apply index_Int_Some in Hl as [? Hl]. apply lookup_lt_Some in Hl.
      unfold rows. lia.
    + split; [|done]. intros _ Hr.
      destruct (index_Int_lt (grid L) r Hr) as [l' Hl']. congruence.
  - intros l Hr Hl.
    assert (Hidx : index (grid L) (Int r) = Some l)
      by by apply index_Int_Some.
    rewrite Hidx. split.
    + intros v Hc Hv.
      assert (Hcol : index (deref h l) (Int c) = Some v)
        by by apply index_Int_Some.
      by rewrite Hcol.
    + intros Hc.
      assert (Hcol : index (deref h l) (Int c) = None).
      { unfold index. case_decide; [|done].
        apply lookup_ge_None. lia. }
      by rewrite Hcol.
Qed.

(** X2. [inBounds] answers false, without throwing, whenever one of its
    coordinates is [NaN], [Infinity] or [-Infinity], whatever the other
    coordinate and the grid are, a grid without rows included.  These are
    the coordinates that [handleClick] computes with a tile size of
    zero. *)
Theorem inBounds_rejects_non_finite (h : heap) (L : Level) (r c : number) :
  r = NaN ∨ r = PosInf ∨ r = NegInf ∨ c = NaN ∨ c = PosInf ∨ c = NegInf →
  inBounds h L r c = Normal false.
Proof.
  intros Hnon.
  destruct (inBounds_total h L r c) as [[] Hb]; [|done].
  destruct (inBounds_true_Int _ _ _ _ Hb) as (zr & zc & -> & ->).
  by repeat destruct Hnon as [Hnon|Hnon].
Qed.

(** A row that is not a number, on the maze. *)
Lemma inBounds_rejects_non_finite_witness :
  inBounds maze.1 maze_level NaN (Int 0) = Normal false.
Proof.
  apply (inBounds_rejects_non_finite maze.1 maze_level NaN (Int 0)).
  by left.
Defined.

(** X3. The key of a cell determines the cell: two cells with integer
    coordinates, negative ones included, share a key only if they are the
    same cell, and the key of one never reads as the key of another
    (as "1,11" and "11,1" show, the comma is what separates them). *)
Theorem key_separates_cells (r c r' c' : Z) :
  key (Int r) (Int c) = key (Int r') (Int c') ↔ r = r' ∧ c = c'.
Proof.
  split; [apply key_inj|]. by intros [-> ->].
Qed.

(** ** Pixels and cells *)

Lemma floor_div_Int_pos (a b : Z) : 0 < b → floor_div a b = Int (a `div` b).
Proof. intros. unfold floor_div. by rewrite decide_False by lia. Qed.

Lemma div_bounds_pos (a b n : Z) :
  0 < b → (0 ≤ a `div` b < n ↔ 0 ≤ a < n * b).
Proof.
  intros Hb. pose proof (Z.div_mod a b ltac:(lia)).
  pose proof (Z.mod_pos_bound a b Hb). split; intros [? ?]; split; nia.
Qed.

(** X4. With a positive tile size, a click is in bounds exactly when the
    pixel lies on the canvas of the level, that is within
    [pixelWidth()] by [pixelHeight()] pixels from the origin; on a grid
    without rows no pixel is. *)
Theorem click_in_bounds_iff_on_canvas (h : heap) (L : Level) (mouseX mouseY : Z) :
  0 < ts L →
  (inBounds h L (floor_div mouseY (ts L)) (floor_div mouseX (ts L)) = Normal true
   ↔ ∃ w hgt, pixelWidth h L = Normal w ∧ pixelHeight L = Normal hgt ∧
              0 ≤ mouseX < w ∧ 0 ≤ mouseY < hgt).
Proof.
  intros Hts. rewrite !floor_div_Int_pos by done.
  destruct (inBounds_Int h L (mouseY `div` ts L) (mouseX `div` ts L))
    as (b & Hb & Hiff).
  rewrite Hb. unfold pixelWidth, pixelHeight. split.
  - intros [= ->]. destruct Hiff as [Hiff _].
    destruct Hiff as [Hr (n & Hn & Hc)]; [done|]. rewrite Hn. simpl.
    eexists _, _. split; [done|]. split; [done|].
    apply div_bounds_pos in Hr, Hc; done.
  - intros (w & hgt & Hw & [= <-] & Hx & Hy).
    destruct (cols h L) as [n|] eqn:Hn; simpl in Hw; [|done].
    injection Hw as <-. f_equal. apply Hiff.
    split; [by apply div_bounds_pos|].
    exists n. split; [done|]. by apply div_bounds_pos.
Qed.

(** The maze is 128 by 96 pixels, and pixel (40, 70) is on it. *)
Lemma click_in_bounds_iff_on_canvas_witness :
  0 < ts maze_level ∧
  inBounds maze.1 maze_level (floor_div 70 (ts maze_level))
    (floor_div 40 (ts maze_level)) = Normal true.
Proof.
  split; [by vm_compute|].
  apply (click_in_bounds_iff_on_canvas maze.1 maze_level 40 70);
    [by vm_compute|].
  exists 128, 96. repeat split; by vm_compute.
Defined.

(** ** Drawing *)

Lemma for_each_Normal (n i : nat) (body : nat → list p5_call * completion unit)
    (f : nat → list p5_call) :
  (∀ j, (i ≤ j < i + n)%nat → body j = (f j, Normal ())) →
  for_each n i body = (seq i n ≫= f, Normal ()).
Proof.
  revert i. induction n as [|n IH]; intros i Hbody; [done|].
  cbn [for_each seq]. rewrite (Hbody i) by lia.
  rewrite (IH (S i)) by (intros j ?; apply Hbody; lia).
  by rewrite bind_cons.
Qed.

Lemma draw_eq (h : heap) (L : Level) : draw h L = (frame h L, Normal ()).
Proof.
  unfold draw, frame. apply for_each_Normal. intros r Hr.
  destruct (cols_nonempty h L) as [n Hn]; [lia|].
  unfold width. rewrite Hn. apply for_each_Normal. intros c _.
  rewrite grid_get_of_nat by lia. done.
Qed.

Lemma length_bind_const {A B} (f : A → list B) (l : list A) (k : nat) :
  (∀ x, length (f x) = k) → length (l ≫= f) = (length l * k)%nat.
Proof.
  intros Hf. induction l as [|x l IH]; [done|].
  rewrite bind_cons, length_app, Hf, IH. simpl. lia.
Qed.

Lemma elem_of_frame (h : heap) (L : Level) (call : p5_call) :
  call ∈ frame h L ↔
  ∃ r c, (r < rows L)%nat ∧ (c < width h L)%nat ∧ call ∈ tile_calls L r c.
Proof.
  unfold frame. rewrite list_elem_of_bind. split.
  - intros (r & Hin & Hr). apply list_elem_of_bind in Hin as (c & Hin & Hc).
    apply elem_of_seq in Hr, Hc. exists r, c. split; [lia|]. split; [lia|done].
  - intros (r & c & Hr & Hc & Hin). exists r. split.
    + apply list_elem_of_bind. exists c. split; [done|].
      apply elem_of_seq. lia.
    + apply elem_of_seq. lia.
Qed.

Lemma width_in_bounds (h : heap) (L : Level) (r c : nat) :
  inBounds h L (of_nat r) (of_nat c) = Normal true ↔
  (r < rows L)%nat ∧ (c < width h L)%nat.
Proof.
  rewrite inBounds_of_nat. unfold width. split.
  - intros [Hr (n & -> & Hc)]. done.
  - intros [Hr Hc]. split; [done|].
    destruct (cols h L) as [n|]; [eauto|lia].
Qed.

(** X5. [draw] never throws, not even on a grid without rows, where it
    draws nothing.  It issues four calls per in-bounds cell, [rows()]
    times [cols()] blocks in row-major order, each block setting the
    stroke, the fill and then the rectangle of its cell; every in-bounds
    cell gets its rectangle. *)
Theorem draw_one_block_per_cell (h : heap) (L : Level) :
  ∃ t, draw h L = (t, Normal ()) ∧
    t = frame h L ∧
    length t = (4 * (rows L * width h L))%nat ∧
    (rows L = 0%nat → t = []) ∧
    ∀ r c : nat, inBounds h L (of_nat r) (of_nat c) = Normal true →
      Rect (Z.of_nat c * ts L) (Z.of_nat r * ts L) (ts L) (ts L) ∈ t.
Proof.
  exists (frame h L). split; [apply draw_eq|]. split; [done|]. split; [|split].
  - unfold frame.
    rewrite (length_bind_const _ _ (width h L * 4)).
    + rewrite length_seq. lia.
    + intros r. rewrite (length_bind_const _ _ 4%nat); [|done].
      by rewrite length_seq.
  - intros Hrows. unfold frame. by rewrite Hrows.
  - intros r c Hin. apply width_in_bounds in Hin as [Hr Hc].
    apply elem_of_frame. exists r, c. split; [done|]. split; [done|].
    unfold tile_calls. set_solver.
Qed.

(** X6. What [draw] issues depends on the size of the grid, the tile
    size and the painted set only: two levels that agree on these draw
    the same, whatever their tiles are.  Walls, start and goal are drawn
    like floor. *)
Theorem draw_ignores_tiles (h h' : heap) (L L' : Level) :
  rows L = rows L' → width h L = width h' L' → ts L = ts L' →
  clickedTiles L = clickedTiles L' →
  draw h L = draw h' L'.
Proof.
  intros Hrows Hwidth Hts Hclicked. rewrite !draw_eq.
  unfold frame, tile_calls. by rewrite Hrows, Hwidth, Hts, Hclicked.
Qed.

(** The maze as loaded and as the constructor leaves it draw the same. *)
Lemma draw_ignores_tiles_witness :
  draw maze.1 maze_level = draw built_maze.1 built_maze.2.
Proof.
  apply draw_ignores_tiles; vm_compute; reflexivity.
Defined.

(** X7. With a tile size that is not negative, every rectangle that
    [draw] issues is the square of an in-bounds cell, [ts] pixels wide
    and high at [(c * ts, r * ts)], and lies on the canvas of
    [pixelWidth()] by [pixelHeight()] pixels. *)
Theorem draw_rects_on_canvas (h : heap) (L : Level) (x y w hgt : Z) :
  0 ≤ ts L → Rect x y w hgt ∈ (draw h L).1 →
  ∃ (r c : nat) (cw ch : Z),
    inBounds h L (of_nat r) (of_nat c) = Normal true ∧
    x = Z.of_nat c * ts L ∧ y = Z.of_nat r * ts L ∧ w = ts L ∧ hgt = ts L ∧
    pixelWidth h L = Normal cw ∧ pixelHeight L = Normal ch ∧
    0 ≤ x ∧ x + w ≤ cw ∧ 0 ≤ y ∧ y + hgt ≤ ch.
Proof.
  intros Hts. rewrite draw_eq. simpl. intros Hin.
  apply elem_of_frame in Hin as (r & c & Hr & Hc & Hin).
  unfold tile_calls in Hin.
  repeat (apply elem_of_cons in Hin as [Heq|Hin]; [try discriminate Heq|]);
    [|by apply elem_of_nil in Hin].
  injection Heq as -> -> -> ->.
  destruct (cols h L) as [n|] eqn:Hn; [|unfold width in Hc; rewrite Hn in Hc; lia].
  assert (Hw : width h L = n) by (unfold width; by rewrite Hn).
  exists r, c, (Z.of_nat n * ts L), (Z.of_nat (rows L) * ts L).
  split; [by apply width_in_bounds|]. do 4 (split; [done|]).
  unfold pixelWidth, pixelHeight. rewrite Hn. simpl.
  split; [done|]. split; [done|]. nia.
Qed.

Lemma draw_rects_on_canvas_witness :
  ∃ (r c : nat) (cw ch : Z),
    inBounds built_maze.1 clicked_maze (of_nat r) (of_nat c) = Normal true ∧
    32 = Z.of_nat c * ts clicked_maze ∧ 64 = Z.of_nat r * ts clicked_maze ∧
    32 = ts clicked_maze ∧ 32 = ts clicked_maze ∧
    pixelWidth built_maze.1 clicked_maze = Normal cw ∧
    pixelHeight clicked_maze = Normal ch ∧
    0 ≤ 32 ∧ 32 + 32 ≤ cw ∧ 0 ≤ 64 ∧ 64 + 32 ≤ ch.
Proof.
  apply (draw_rects_on_canvas built_maze.1 clicked_maze 32 64 32 32).
  - by vm_compute.
  - vm_compute. set_solver.
Defined.

Lemma handleClick_clicked (h : heap) (L L' : Level) (mouseX mouseY : Z) :
  inBounds h L (floor_div mouseY (ts L)) (floor_div mouseX (ts L)) = Normal true →
  handleClick h L mouseX mouseY = Normal L' →
  grid L' = grid L ∧ ts L' = ts L ∧ start L' = start L ∧
  ∀ k, k ∈ clickedTiles L' ↔
       (k = key (floor_div mouseY (ts L)) (floor_div mouseX (ts L))
          ∧ k ∉ clickedTiles L) ∨
       (k ≠ key (floor_div mouseY (ts L)) (floor_div mouseX (ts L))
          ∧ k ∈ clickedTiles L).
Proof.
  intros Hin Hclick. rewrite (handleClick_in _ _ _ _ Hin) in Hclick.
  injection Hclick as <-. simpl. do 3 (split; [done|]). intros k.
  destruct (decide (k = key (floor_div mouseY (ts L))
                            (floor_div mouseX (ts L)))) as [->|];
    case_bool_decide; set_solver.
Qed.

(** X8. A click repaints the tile under the pointer and no other.  With
    a positive tile size and an in-bounds click, the pixel lies inside
    the rectangle that [draw] issues for the clicked cell, the fill of
    that cell changes from 232 to 0 or from 0 to 232, and the calls for
    every other cell are as before the click. *)
Theorem click_repaints_tile (h : heap) (L L' : Level) (mouseX mouseY : Z) :
  0 < ts L →
  inBounds h L (floor_div mouseY (ts L)) (floor_div mouseX (ts L)) = Normal true →
  handleClick h L mouseX mouseY = Normal L' →
  ∃ r c : nat,
    floor_div mouseY (ts L) = of_nat r ∧ floor_div mouseX (ts L) = of_nat c ∧
    Z.of_nat c * ts L ≤ mouseX < Z.of_nat c * ts L + ts L ∧
    Z.of_nat r * ts L ≤ mouseY < Z.of_nat r * ts L + ts L ∧
    (Fill 0 ∈ tile_calls L' r c ↔ Fill 232 ∈ tile_calls L r c) ∧
    (Fill 232 ∈ tile_calls L' r c ↔ Fill 0 ∈ tile_calls L r c) ∧
    (∀ r' c' : nat, (r', c') ≠ (r, c) →
       tile_calls L' r' c' = tile_calls L r' c') ∧
    (draw h L').1 = frame h L'.
Proof.
  intros Hts Hin Hclick.
  destruct (handleClick_clicked _ _ _ _ _ Hin Hclick) as (_ & Hts' & _ & Hk).
  rewrite !floor_div_Int_pos in * by done.
  destruct (inBounds_Int h L (mouseY `div` ts L) (mouseX `div` ts L))
    as (b & Hb & Hiff).
  rewrite Hb in Hin. injection Hin as ->.
  destruct Hiff as [Hiff _]. destruct Hiff as [Hr (n & Hn & Hc)]; [done|].
  exists (Z.to_nat (mouseY `div` ts L)), (Z.to_nat (mouseX `div` ts L)).
  unfold of_nat. rewrite !Z2Nat.id by lia.
  split; [done|]. split; [done|].
  pose proof (Z.div_mod mouseX (ts L) ltac:(lia)).
  pose proof (Z.mod_pos_bound mouseX (ts L) Hts).
  pose proof (Z.div_mod mouseY (ts L) ltac:(lia)).
  pose proof (Z.mod_pos_bound mouseY (ts L) Hts).
  split; [nia|]. split; [nia|].
  assert (Hfill : ∀ (M : Level) (r c : nat) (g : Z),
    Fill g ∈ tile_calls M r c ↔
    g = if bool_decide (key (Int (Z.of_nat r)) (Int (Z.of_nat c))
                          ∈ clickedTiles M) then 0 else 232).
  { intros M r c g. unfold tile_calls, of_nat. set_solver. }
  split; [|split; [|split]].
  - rewrite !Hfill, !Z2Nat.id by lia.
    specialize (Hk (key (Int (mouseY `div` ts L)) (Int (mouseX `div` ts L)))).
    repeat case_bool_decide; split; try done; intros _; exfalso; tauto.
  - rewrite !Hfill, !Z2Nat.id by lia.
    specialize (Hk (key (Int (mouseY `div` ts L)) (Int (mouseX `div` ts L)))).
    repeat case_bool_decide; split; try done; intros _; exfalso; tauto.
  - intros r' c' Hne. unfold tile_calls, of_nat. rewrite Hts'.
    assert (Hother : key (Int (Z.of_nat r')) (Int (Z.of_nat c'))
                     ≠ key (Int (mouseY `div` ts L)) (Int (mouseX `div` ts L))).
    { intros Heq. apply key_inj in Heq as [Hr' Hc']. apply Hne.
      f_equal; lia. }
    do 3 f_equal.
    specialize (Hk (key (Int (Z.of_nat r')) (Int (Z.of_nat c')))).
    repeat case_bool_decide; try done; exfalso; tauto.
  - by rewrite draw_eq.
Qed.

(** A click at pixel (40, 70) of the constructed maze paints row 2,
    column 1. *)
Lemma click_repaints_tile_witness :
  ∃ r c : nat,
    floor_div 70 (ts built_maze.2) = of_nat r ∧
    floor_div 40 (ts built_maze.2) = of_nat c ∧
    Z.of_nat c * ts built_maze.2 ≤ 40 < Z.of_nat c * ts built_maze.2 + ts built_maze.2 ∧
    Z.of_nat r * ts built_maze.2 ≤ 70 < Z.of_nat r * ts built_maze.2 + ts built_maze.2 ∧
    (Fill 0 ∈ tile_calls clicked_maze r c ↔ Fill 232 ∈ tile_calls built_maze.2 r c) ∧
    (Fill 232 ∈ tile_calls clicked_maze r c ↔ Fill 0 ∈ tile_calls built_maze.2 r c) ∧
    (∀ r' c' : nat, (r', c') ≠ (r, c) →
       tile_calls clicked_maze r' c' = tile_calls built_maze.2 r' c') ∧
    (draw built_maze.1 clicked_maze).1 = frame built_maze.1 clicked_maze.
Proof.
  apply (click_repaints_tile built_maze.1 built_maze.2 clicked_maze 40 70);
    vm_compute; reflexivity.
Defined.

(** ** The constructor and the store *)

Lemma cell_same_grid (h : heap) (L L' : Level) (r c : nat) :
  grid L' = grid L → cell h L' r c = cell h L r c.
Proof. unfold cell. by intros ->. Qed.

(** After the constructor found a start tile, the cells that hold the
    start tile are cells that held it before, the recorded start
    excepted. *)
Lemma new_Level_holds_start g t h h' L p q :
  new_Level g t h = Normal (h', L) → start L = Some p →
  holds_start h' L q → holds_start h (mkLevel g t None ∅) q ∧ q ≠ p.
Proof.
  destruct (new_Level_eq g t h) as ([p'|] & _ & Hnew).
  - destruct Hnew as (l & Hl & Hc & ->). intros [= <- <-] [= <-].
    unfold holds_start, cell. simpl.
    destruct (g !! pos_r q) as [l'|] eqn:Hl'; simpl; [|done].
    destruct (decide (l = l')) as [<-|Hne].
    + rewrite deref_insert_eq.
      destruct (decide (pos_c p' = pos_c q)) as [Heq|Hcol].
      * rewrite Heq, list_lookup_insert_eq; [done|].
        rewrite <-Heq. by apply lookup_lt_Some in Hc.
      * rewrite list_lookup_insert_ne by done. intros Hq. split; [done|].
        by intros ->.
    + rewrite deref_insert_ne by done. intros Hq. split; [done|].
      intros ->. congruence.
  - rewrite Hnew. by intros [= <- <-].
Qed.

Lemma new_Level_NoDup (g : list loc) (t : Z) (h : heap) :
  NoDup g →
  ∃ h' L, new_Level g t h = Normal (h', L) ∧ grid L = g ∧
    (∀ r c, start L ≠ Some (mkCell r c) → cell h' L r c = cell h L r c) ∧
    (∀ p, start L = Some p →
          cell h L (pos_r p) (pos_c p) = Some (Num 2) ∧
          cell h' L (pos_r p) (pos_c p) = Some (Num 0)) ∧
    (∀ l, l ∉ g → h' !! l = h !! l) ∧
    (h' = h ↔ start L = None).
Proof.
  intros Hnodup. destruct (new_Level_eq g t h) as ([p|] & _ & Hnew).
  - destruct Hnew as (l & Hl & Hc & ->). eexists _, _. split; [done|].
    simpl. split; [done|].
    assert (Hlen : (pos_c p < length (deref h l))%nat)
      by by apply lookup_lt_Some in Hc.
    split; [|split; [|split; [|split]]].
    + intros r c Hne. unfold cell. simpl.
      destruct (g !! r) as [l'|] eqn:Hl'; simpl; [|done].
      destruct (decide (l = l')) as [<-|Hother].
      * rewrite deref_insert_eq.
        pose proof (NoDup_lookup _ _ _ _ Hnodup Hl Hl') as <-.
        apply list_lookup_insert_ne. intros <-. apply Hne. by destruct p.
      * by rewrite deref_insert_ne.
    + intros ? [= <-]. unfold cell. simpl. rewrite Hl. simpl.
      split; [done|]. rewrite deref_insert_eq.
      by apply list_lookup_insert_eq.
    + intros l' Hl'. apply lookup_insert_ne. intros ->. apply Hl'.
      by eapply list_elem_of_lookup_2.
    + intros Heq. exfalso.
      assert (Hrow : deref (<[l := <[pos_c p := Num 0]> (deref h l)]> h) l
                     = deref h l) by by rewrite Heq.
      rewrite deref_insert_eq in Hrow. rewrite <-Hrow in Hc.
      by rewrite list_lookup_insert_eq in Hc.
    + done.
  - rewrite Hnew. eexists _, _. split; [done|]. simpl. by repeat split.
Qed.

(** X9. On a grid whose rows are distinct arrays, the constructor changes
    exactly one cell: the start tile it found goes from 2 to 0, every
    other cell of the grid and every array outside the grid is as before.
    The store is left untouched exactly when no start tile was found; in
    the other case the array handed to the constructor has been
    written. *)
Theorem new_Level_changes_only_start (g : list loc) (t : Z) (h : heap) :
  NoDup g →
  ∃ h' L, new_Level g t h = Normal (h', L) ∧ grid L = g ∧
    (∀ r c, start L ≠ Some (mkCell r c) → cell h' L r c = cell h L r c) ∧
    (∀ p, start L = Some p →
          cell h L (pos_r p) (pos_c p) = Some (Num 2) ∧
          cell h' L (pos_r p) (pos_c p) = Some (Num 0)) ∧
    (∀ l, l ∉ g → h' !! l = h !! l) ∧
    (h' = h ↔ start L = None).
Proof. apply new_Level_NoDup. Qed.

(** The maze: the start tile at row 1, column 2 is the one cell that
    changes. *)
Lemma new_Level_changes_only_start_witness :
  ∃ h' L, new_Level maze.2 TS maze.1 = Normal (h', L) ∧ grid L = maze.2 ∧
    (∀ r c, start L ≠ Some (mkCell r c) → cell h' L r c = cell maze.1 L r c) ∧
    (∀ p, start L = Some p →
          cell maze.1 L (pos_r p) (pos_c p) = Some (Num 2) ∧
          cell h' L (pos_r p) (pos_c p) = Some (Num 0)) ∧
    (∀ l, l ∉ maze.2 → h' !! l = maze.1 !! l) ∧
    (h' = maze.1 ↔ start L = None).
Proof.
  apply (new_Level_changes_only_start maze.2 TS maze.1).
  apply (bool_decide_unpack (NoDup maze.2)). vm_compute. exact I.
Defined.

(** X10. The start tile is used up by the constructor.  Scanning a
    constructed level again never finds the recorded start: [findStart]
    returns either null or a cell that comes strictly later in row-major
    order, and it returns null whenever the grid handed to the
    constructor had at most one in-bounds start tile. *)
Theorem findStart_after_construction (g : list loc) (t : Z) (h : heap) :
  ∃ h' L res,
    new_Level g t h = Normal (h', L) ∧ findStart h' L = Normal res ∧
    (∀ p q, start L = Some p → res = Some q → row_major_le p q ∧ q ≠ p) ∧
    (start L = None → res = None) ∧
    ((∀ p q, in_bounds_start h (mkLevel g t None ∅) p →
             in_bounds_start h (mkLevel g t None ∅) q → p = q) →
     res = None).
Proof.
  destruct (new_Level_Normal g t h) as (h' & L & HL).
  destruct (findStart_spec h' L) as (res & Hres & Hspec).
  exists h', L, res. split; [done|]. split; [done|].
  pose proof (new_Level_fields _ _ _ _ _ HL) as (Hgrid & _ & _).
  assert (Hback : ∀ p q, start L = Some p → in_bounds_start h' L q →
            in_bounds_start h (mkLevel g t None ∅) q ∧ q ≠ p).
  { intros p q Hp [Hin Hq].
    destruct (new_Level_holds_start _ _ _ _ _ _ _ HL Hp Hq) as [Hq0 Hne].
    split; [|done]. split; [|done].
    rewrite <-Hin. rewrite (inBounds_same_grid h L) by done.
    symmetry. apply inBounds_same_lengths. intros l.
    by eapply new_Level_length. }
  destruct (new_Level_eq g t h) as (res0 & Hres0 & Hnew).
  destruct (findStart_spec h (mkLevel g t None ∅)) as (res0' & Hres0' & Hmin).
  rewrite Hres0 in Hres0'. injection Hres0' as <-.
  assert (Hstart : start L = res0).
  { destruct res0 as [p0|].
    - destruct Hnew as (l & _ & _ & Hnew). rewrite Hnew in HL.
      by injection HL as <- <-.
    - rewrite Hnew in HL. by injection HL as <- <-. }
  assert (Hnone : start L = None → res = None).
  { intros Hs. rewrite Hs in Hstart. subst res0.
    rewrite Hnew in HL. injection HL as <- <-.
    rewrite Hres0 in Hres. by injection Hres as <-. }
  split; [|split; [done|]].
  - intros p q Hp ->. destruct Hspec as [Hq _].
    destruct (Hback p q Hp Hq) as [Hq0 Hne]. split; [|done].
    rewrite Hp in Hstart. subst res0. by apply Hmin.
  - intros Huniq. destruct (start L) as [p|] eqn:Hp; [|by apply Hnone].
    destruct res as [q|]; [|done]. destruct Hspec as [Hq _].
    destruct (Hback p q eq_refl Hq) as [Hq0 Hne]. subst res0.
    destruct Hmin as [Hp0 _]. by destruct Hne, (Huniq p q Hp0 Hq0).
Qed.

(* ===================================================================== *)
(** * Further properties of sketch.js                                    *)
(* ===================================================================== *)

(** ** Levels built from the raw data *)

Lemma scan_ext {A} (n i : nat) (body body' : nat → completion (option A)) :
  (∀ j, (i ≤ j < i + n)%nat → body j = body' j) →
  scan n i body = scan n i body'.
Proof.
  revert i. induction n as [|n IH]; intros i Hbody; [done|].
  simpl. rewrite (Hbody i) by lia.
  destruct (body' i) as [[a|]|]; simpl; try done.
  apply IH. intros j ?. apply Hbody. lia.
Qed.

Lemma cell_ext (h h' : heap) (L L' : Level) (r c : nat) :
  length (grid L) = length (grid L') →
  (∀ i l l', grid L !! i = Some l → grid L' !! i = Some l' →
             deref h l = deref h' l') →
  cell h L r c = cell h' L' r c.
Proof.
  intros Hlen Hrows. unfold cell.
  destruct (grid L !! r) as [l|] eqn:Hl.
  - destruct (lookup_lt_is_Some_2 (grid L') r) as [l' Hl'].
    { rewrite <-Hlen. by apply lookup_lt_Some in Hl. }
    rewrite Hl'. simpl. by rewrite (Hrows r l l').
  - apply lookup_ge_None in Hl. rewrite Hlen in Hl.
    apply lookup_ge_None in Hl. by rewrite Hl.
Qed.

(** [findStart] depends on the tiles only, not on which arrays hold
    them. *)
Lemma findStart_ext (h h' : heap) (L L' : Level) :
  length (grid L) = length (grid L') →
  (∀ i l l', grid L !! i = Some l → grid L' !! i = Some l' →
             deref h l = deref h' l') →
  findStart h L = findStart h' L'.
Proof.
  intros Hlen Hrows. unfold findStart, rows. rewrite Hlen.
  apply scan_ext. intros r Hr.
  assert (Hcols : cols h L = cols h' L').
  { unfold cols. rewrite !index_zero, !head_lookup.
    destruct (grid L !! 0%nat) as [l|] eqn:Hl.
    - destruct (lookup_lt_is_Some_2 (grid L') 0) as [l' Hl']; [lia|].
      rewrite Hl'. by rewrite (Hrows 0%nat l l').
    - apply lookup_ge_None in Hl. lia. }
  rewrite Hcols. destruct (cols h' L') as [n|]; simpl; [|done].
  apply scan_ext. intros c _.
  rewrite !grid_get_of_nat by (unfold rows; lia).
  by rewrite (cell_ext h h' L L').
Qed.

Lemma level_of_copy_aux (h h1 h2 : heap) (g copy : list loc) (L : Level) :
  allocated h g → copyGrid g h = (h1, copy) →
  new_Level copy TS h1 = Normal (h2, L) →
  grid L = copy ∧ level_of_raw h g h2 L.
Proof.
  intros Hg Hc HL.
  destruct (copyGrid_spec _ _ _ _ Hg Hc)
    as (Hlen & _ & _ & _ & Helem & Hnodup).
  destruct (new_Level_fields _ _ _ _ _ HL) as (Hgrid & Hts & Hclicked).
  split; [done|].
  assert (Hraw_len : length (grid (mkLevel copy TS None ∅))
                     = length (grid (raw_level g))) by done.
  assert (Hraw_rows : ∀ i l l', grid (mkLevel copy TS None ∅) !! i = Some l →
            grid (raw_level g) !! i = Some l' → deref h1 l = deref h l').
  { intros i l l' Hl Hl'. by apply (Helem i). }
  destruct (new_Level_NoDup copy TS h1 Hnodup)
    as (h2' & L' & HL' & _ & Hother & Hstart & _ & _).
  rewrite HL in HL'. injection HL' as <- <-.
  split; [done|]. split; [done|]. split; [by rewrite Hgrid|].
  split; [by rewrite Hgrid|]. split; [|split].
  - intros i l l0 Hl Hl0. rewrite (new_Level_length _ _ _ _ _ l HL).
    rewrite Hgrid in Hl. by rewrite (Helem i l0 l).
  - destruct (new_Level_eq copy TS h1) as (res & Hres & Hnew).
    rewrite <-(findStart_ext h1 h (mkLevel copy TS None ∅) (raw_level g))
      by done.
    rewrite Hres. f_equal. destruct res as [p|].
    + destruct Hnew as (l & _ & _ & Hnew). rewrite Hnew in HL.
      by injection HL as <- <-.
    + rewrite Hnew in HL. by injection HL as <- <-.
  - intros r c. case_decide as Hs.
    + by apply (Hstart (mkCell r c)) in Hs as [_ ?].
    + rewrite (Hother r c Hs).
      rewrite (cell_same_grid h1 (mkLevel copy TS None ∅) L) by done.
      by apply cell_ext.
Qed.

(** X11. [new Level(copyGrid(g), TS)] is the level of the raw grid [g]:
    its rows are distinct new arrays even where [g] lists one array
    twice, its start is what a scan of [g] finds, and it reads as [g]
    does at every cell but the start tile, which reads 0 in the level
    and still 2 in [g]. *)
Theorem level_of_copy (h : heap) (g : list loc) :
  allocated h g →
  ∃ h1 copy h2 L,
    copyGrid g h = (h1, copy) ∧ new_Level copy TS h1 = Normal (h2, L) ∧
    grid L = copy ∧ level_of_raw h g h2 L ∧
    (∀ r c, cell h2 (raw_level g) r c = cell h (raw_level g) r c).
Proof.
  intros Hg. destruct (copyGrid g h) as [h1 copy] eqn:Hc.
  destruct (new_Level_Normal copy TS h1) as (h2 & L & HL).
  destruct (level_of_copy_aux _ _ _ _ _ _ Hg Hc HL) as [Hgrid Hraw].
  exists h1, copy, h2, L. do 4 (split; [done|]).
  destruct (copyGrid_spec _ _ _ _ Hg Hc) as (_ & Hsame & _ & Hnew & _ & _).
  intros r c. apply cell_ext; [done|]. simpl. intros i l l' Hl Hl'.
  rewrite Hl in Hl'. injection Hl' as <-. apply deref_agree.
  assert (Hin : l ∈ g) by by eapply list_elem_of_lookup_2.
  rewrite (new_Level_frame _ _ _ _ _ l HL).
  - by apply Hsame, Hg.
  - intros Hcopy. apply Hnew in Hcopy as [Hfresh _]. by apply Hfresh, Hg.
Qed.

(** A grid that lists the same array twice, the start tile in it. *)
Lemma level_of_copy_witness :
  let h : heap := {[ 1%positive := [Num 0; Num 2] ]} in
  let g := [1%positive; 1%positive] in
  ∃ h1 copy h2 L,
    copyGrid g h = (h1, copy) ∧ new_Level copy TS h1 = Normal (h2, L) ∧
    grid L = copy ∧ level_of_raw h g h2 L ∧
    (∀ r c, cell h2 (raw_level g) r c = cell h (raw_level g) r c).
Proof.
  apply (level_of_copy {[ 1%positive := [Num 0; Num 2] ]}
           [1%positive; 1%positive]).
  intros l Hl. apply elem_of_dom.
  repeat (apply elem_of_cons in Hl as [->|Hl]; [by vm_compute; eexists|]).
  by apply elem_of_nil in Hl.
Defined.

Lemma level_of_raw_frame (h0 h h' : heap) (g : list loc) (L : Level) :
  (∀ l, l ∈ grid L → h' !! l = h !! l) →
  level_of_raw h0 g h L → level_of_raw h0 g h' L.
Proof.
  intros Hsame (Hts & Hcl & Hnd & Hlen & Hlens & Hfs & Hcells).
  assert (Hrow : ∀ i l, grid L !! i = Some l → deref h' l = deref h l).
  { intros i l Hl. apply deref_agree, Hsame. by eapply list_elem_of_lookup_2. }
  do 4 (split; [done|]). split; [|split; [done|]].
  - intros i l l0 Hl Hl0. rewrite (Hrow i l Hl). by eapply Hlens.
  - intros r c. rewrite <-Hcells. apply cell_ext; [done|].
    intros i l l' Hl Hl'. rewrite Hl in Hl'. injection Hl' as <-.
    by eapply Hrow.
Qed.

Lemma level_of_raw_raw (h0 h0' h : heap) (g : list loc) (L : Level) :
  (∀ l, l ∈ g → h0' !! l = h0 !! l) →
  level_of_raw h0 g h L → level_of_raw h0' g h L.
Proof.
  intros Hsame (Hts & Hcl & Hnd & Hlen & Hlens & Hfs & Hcells).
  assert (Hrow : ∀ i l l', grid (raw_level g) !! i = Some l →
            grid (raw_level g) !! i = Some l' → deref h0' l = deref h0 l').
  { simpl. intros i l l' Hl Hl'. rewrite Hl in Hl'. injection Hl' as <-.
    apply deref_agree, Hsame. by eapply list_elem_of_lookup_2. }
  do 4 (split; [done|]). split; [|split].
  - intros i l l0 Hl Hl0. rewrite (Hrow i l0 l0 Hl0 Hl0). by eapply Hlens.
  - by rewrite (findStart_ext h0' h0 (raw_level g) (raw_level g)).
  - intros r c. rewrite Hcells. case_decide; [done|]. symmetry.
    by apply cell_ext.
Qed.

(** The levels that [build_levels] returns, one per raw grid and in the
    same order: each is the level of its raw grid, on rows allocated for
    it alone. *)
Lemma build_levels_mirror (data : list (list loc)) (h : heap) :
  Forall (allocated h) data →
  ∃ h' ls, build_levels data h = Normal (h', ls) ∧
    (∀ l, l ∈ dom h → h' !! l = h !! l) ∧
    dom h ⊆ dom h' ∧
    length ls = length data ∧
    (∀ i g L, data !! i = Some g → ls !! i = Some L →
       level_of_raw h g h' L ∧ ∀ l, l ∈ grid L → (l ∉ dom h) ∧ l ∈ dom h') ∧
    (∀ i j Li Lj, (i < j)%nat → ls !! i = Some Li → ls !! j = Some Lj →
       ∀ l, l ∈ grid Li → l ∉ grid Lj).
Proof.
  revert h. induction data as [|g data IH]; intros h Hdata.
  { exists h, []. split; [done|]. split; [done|]. split; [done|].
    split; [done|]. split; intros; simplify_eq. }
  cbn [build_levels]. apply Forall_cons in Hdata as [Hg Hdata].
  destruct (copyGrid g h) as [h1 copy] eqn:Hc.
  destruct (copyGrid_spec _ _ _ _ Hg Hc) as (_ & Hsame1 & Hdom1 & Hnew & _ & _).
  destruct (new_Level_Normal copy TS h1) as (h2 & L & HL). rewrite HL. simpl.
  destruct (level_of_copy_aux _ _ _ _ _ _ Hg Hc HL) as [Hgrid Hraw].
  pose proof (new_Level_dom _ _ _ _ _ HL) as Hdom2.
  assert (Hold2 : ∀ l, l ∈ dom h → h2 !! l = h !! l).
  { intros l Hl. rewrite (new_Level_frame _ _ _ _ _ l HL).
    - by apply Hsame1.
    - intros Hin. by apply Hnew in Hin as [Hin _]. }
  destruct (IH h2) as (h3 & ls & Hls & Hsame3 & Hdom3 & Hlen & Hmirror & Hdisj).
  { eapply Forall_impl; [exact Hdata|]. intros g0 Hg0 l Hl.
    apply Hdom2, Hdom1, Hg0, Hl. }
  rewrite Hls. simpl. exists h3, (L :: ls). split; [done|].
  assert (Hcopy2 : ∀ l, l ∈ grid L → l ∈ dom h2).
  { intros l Hl. rewrite Hgrid in Hl. apply Hnew in Hl as [_ Hl].
    by apply Hdom2. }
  split; [|split; [set_solver|split; [simpl; by rewrite Hlen|split]]].
  - intros l Hl. rewrite Hsame3 by set_solver. by apply Hold2.
  - intros [|i] g0 L0; simpl.
    + intros [= <-] [= <-]. split.
      * eapply level_of_raw_frame; [|exact Hraw].
        intros l Hl. by apply Hsame3, Hcopy2.
      * intros l Hl. split.
        -- rewrite Hgrid in Hl. by apply Hnew in Hl as [Hl _].
        -- by apply Hdom3, Hcopy2.
    + intros Hg0 HL0. destruct (Hmirror i g0 L0 Hg0 HL0) as [Hraw0 Hrows0].
      split.
      * eapply level_of_raw_raw; [|exact Hraw0]. intros l Hl.
        symmetry. apply Hold2.
        eapply Forall_lookup_1 in Hdata; [|exact Hg0]. by apply Hdata.
      * intros l Hl. destruct (Hrows0 l Hl) as [Hfresh Hin].
        split; [|done]. intros Hh. by apply Hfresh, Hdom2, Hdom1.
  - intros [|i] [|j] Li Lj Hij; simpl; try lia.
    + intros [= <-] HLj l Hl Hin.
      destruct (lookup_lt_is_Some_2 data j) as [g0 Hg0].
      { rewrite <-Hlen. by apply lookup_lt_Some in HLj. }
      destruct (Hmirror j g0 Lj Hg0 HLj) as [_ Hrows0].
      destruct (Hrows0 l Hin) as [Hfresh _]. by apply Hfresh, Hcopy2.
    + intros HLi HLj. apply (Hdisj i j); [lia|done..].
Qed.

Section sketch_further.
Context {Player : Type}.
Context (new_Player : Z → Player) (setCell : Player → Z → Z → Player).

Implicit Types s : @Sketch Player.

Lemma setup_eq s h' ls :
  build_levels (levelsData s) (store s) = Normal (h', ls) →
  setup new_Player setCell s =
    loadLevel setCell (Int 0) (set_player (new_Player TS) (set_levels h' ls s)).
Proof. intros Hb. unfold setup. by rewrite Hb. Qed.

(** X12. After [setup] there is one level per raw grid, in the order of
    the raw data.  Each is the level of its raw grid (tile size 32,
    nothing painted, the start that a scan of the raw grid finds, the raw
    tiles but for that start tile, which reads 0), and no array of the
    store is a row of two levels or a row of a level and of the raw
    data: writing to one level cannot show in another. *)
Theorem setup_levels_mirror_data s :
  Forall (allocated (store s)) (levelsData s) →
  length (levels (setup new_Player setCell s).1) = length (levelsData s) ∧
  (∀ i g L, levelsData s !! i = Some g →
     levels (setup new_Player setCell s).1 !! i = Some L →
     level_of_raw (store s) g (store (setup new_Player setCell s).1) L ∧
     ∀ l, l ∈ grid L → l ∉ dom (store s)) ∧
  (∀ i j Li Lj, i ≠ j →
     levels (setup new_Player setCell s).1 !! i = Some Li →
     levels (setup new_Player setCell s).1 !! j = Some Lj →
     ∀ l, l ∈ grid Li → l ∉ grid Lj).
Proof.
  intros Hdata.
  destruct (build_levels_mirror _ _ Hdata)
    as (h' & ls & Hb & _ & _ & Hlen & Hmirror & Hdisj).
  rewrite (setup_eq s h' ls Hb).
  destruct (loadLevel_frame setCell (Int 0)
              (set_player (new_Player TS) (set_levels h' ls s)))
    as (-> & _ & -> & _).
  simpl. split; [done|]. split.
  - intros i g L Hg HL. destruct (Hmirror i g L Hg HL) as [Hraw Hrows].
    split; [done|]. intros l Hl. by apply Hrows.
  - intros i j Li Lj Hij HLi HLj l Hl Hin.
    destruct (decide (i < j)%nat).
    + by apply (Hdisj i j Li Lj ltac:(done) HLi HLj l).
    + by apply (Hdisj j i Lj Li ltac:(lia) HLj HLi l).
Qed.
End sketch_further.

(** After [setup] on the demo sketch: two levels of the same raw maze, on
    rows of their own. *)
Lemma setup_levels_mirror_data_witness :
  Forall (allocated (store demo_sketch)) (levelsData demo_sketch) ∧
  length (levels (setup demo_new_Player demo_setCell demo_sketch).1) = 2%nat.
Proof.
  assert (Hdata : Forall (allocated (store demo_sketch)) (levelsData demo_sketch)).
  { repeat constructor; intros l Hl; apply elem_of_dom;
      repeat (apply elem_of_cons in Hl as [->|Hl]; [by vm_compute; eexists|]);
      by apply elem_of_nil in Hl. }
  split; [exact Hdata|].
  destruct (setup_levels_mirror_data demo_new_Player demo_setCell
              demo_sketch Hdata) as (Hlen & _ & _).
  exact Hlen.
Defined.

(** ** Loading and cycling levels *)

Lemma handleClick_Normal (h : heap) (L : Level) (mouseX mouseY : Z) :
  ∃ L', handleClick h L mouseX mouseY = Normal L'.
Proof.
  destruct (inBounds_total h L (floor_div mouseY (ts L))
              (floor_div mouseX (ts L))) as [[] Hb].
  - rewrite (handleClick_in _ _ _ _ Hb). eauto.
  - rewrite (handleClick_out _ _ _ _ Hb). eauto.
Qed.

Lemma handleClick_involutive (h : heap) (L L1 : Level) (mouseX mouseY : Z) :
  handleClick h L mouseX mouseY = Normal L1 →
  handleClick h L1 mouseX mouseY = Normal L.
Proof.
  destruct (inBounds_total h L (floor_div mouseY (ts L))
              (floor_div mouseX (ts L))) as [[] Hb].
  - rewrite (handleClick_in _ _ _ _ Hb). intros [= <-].
    rewrite handleClick_in by (by rewrite (inBounds_same_grid h L)).
    simpl. f_equal. destruct L as [g t st cl]. simpl. f_equal.
    set (k := key _ _). apply set_eq. intros k'.
    destruct (decide (k' = k)) as [->|]; repeat case_bool_decide; set_solver.
  - rewrite (handleClick_out _ _ _ _ Hb). intros [= <-].
    by apply handleClick_out.
Qed.

Section sketch_dynamics.
Context {Player : Type}.
Context (new_Player : Z → Player) (setCell : Player → Z → Z → Player).

Implicit Types s : @Sketch Player.

Lemma loadLevel_eq s idx level p :
  index (levels s) idx = Some level → player s = Some p →
  loadLevel setCell idx s =
    let s1 :=
      set_player
        (match start level with
         | Some st => setCell p (Z.of_nat (pos_r st)) (Z.of_nat (pos_c st))
         | None => setCell p 1 1
         end) (set_li idx s) in
    match grid level with
    | [] => (s1, Throw TypeError)
    | l0 :: _ =>
        (set_canvas (Z.of_nat (length (deref (store s) l0)) * ts level)
           (Z.of_nat (rows level) * ts level) s1, Normal ())
    end.
Proof.
  intros Hidx Hp. unfold loadLevel. simpl. rewrite Hidx, Hp.
  unfold pixelWidth, pixelHeight, cols. rewrite index_zero.
  destruct (start level); simpl; destruct (grid level); done.
Qed.

(** X13. [loadLevel(idx)] always makes [idx] the active index and never
    changes the levels or the store.  It returns normally exactly when
    [idx] is the index of a level, a player exists and the grid of that
    level has a row; the canvas is then resized to [cols() * ts] by
    [rows() * ts].  In every other case it throws a TypeError and the
    canvas keeps its size; for a level whose grid has no row the throw
    comes after the player was placed. *)
Theorem loadLevel_outcome s (idx : number) :
  li (loadLevel setCell idx s).1 = idx ∧
  store (loadLevel setCell idx s).1 = store s ∧
  levels (loadLevel setCell idx s).1 = levels s ∧
  ((loadLevel setCell idx s).2 = Normal () ↔
     ∃ level p, index (levels s) idx = Some level ∧ player s = Some p ∧
                grid level ≠ []) ∧
  ((loadLevel setCell idx s).2 = Normal () →
     ∃ level, index (levels s) idx = Some level ∧
       canvas (loadLevel setCell idx s).1 =
         Some (Z.of_nat (width (store s) level) * ts level,
               Z.of_nat (rows level) * ts level)) ∧
  ((loadLevel setCell idx s).2 ≠ Normal () →
     (loadLevel setCell idx s).2 = Throw TypeError ∧
     canvas (loadLevel setCell idx s).1 = canvas s).
Proof.
  destruct (loadLevel_frame setCell idx s) as (Hstore & _ & Hlevels & Hli).
  do 3 (split; [done|]).
  destruct (index (levels s) idx) as [level|] eqn:Hidx;
    [destruct (player s) as [p|] eqn:Hp|].
  - rewrite (loadLevel_eq s idx level p Hidx Hp).
    destruct (grid level) as [|l0 g] eqn:Hg; simpl.
    + split; [|split; [done|by destruct (start level)]].
      split; [done|]. intros (? & ? & [= <-] & _ & Hne). by destruct Hne.
    + split; [|split; [|done]].
      * split; [|done]. intros _. exists level, p. by rewrite Hg.
      * intros _. exists level. split; [done|].
        unfold width, cols. rewrite index_zero, Hg. done.
  - unfold loadLevel. simpl. rewrite Hidx, Hp. simpl.
    split; [|split; [done|done]].
    split; [done|]. by intros (? & ? & _ & ? & _).
  - unfold loadLevel. simpl. rewrite Hidx. simpl.
    split; [|split; [done|done]].
    split; [done|]. by intros (? & ? & ? & _).
Qed.

(** X14. What [setup] leaves on loaded data.  Without raw grids it
    throws a TypeError with a player created and no level.  Otherwise
    level 0 is active and the player stands on the start tile that a scan
    of the first raw grid finds, or on row 1, column 1 when it finds
    none; [setup] then returns normally with the canvas sized to the
    first grid, 32 pixels per tile, unless the first raw grid has no row,
    in which case it throws after placing the player. *)
Theorem setup_outcome s :
  Forall (allocated (store s)) (levelsData s) →
  match levelsData s with
  | [] =>
      (setup new_Player setCell s).2 = Throw TypeError ∧
      levels (setup new_Player setCell s).1 = [] ∧
      player (setup new_Player setCell s).1 = Some (new_Player TS) ∧
      canvas (setup new_Player setCell s).1 = canvas s
  | g :: _ =>
      li (setup new_Player setCell s).1 = Int 0 ∧
      ∃ res, findStart (store s) (raw_level g) = Normal res ∧
        player (setup new_Player setCell s).1 =
          Some (match res with
                | Some p => setCell (new_Player TS) (Z.of_nat (pos_r p))
                              (Z.of_nat (pos_c p))
                | None => setCell (new_Player TS) 1 1
                end) ∧
        match g with
        | [] =>
            (setup new_Player setCell s).2 = Throw TypeError ∧
            canvas (setup new_Player setCell s).1 = canvas s
        | l0 :: _ =>
            (setup new_Player setCell s).2 = Normal () ∧
            canvas (setup new_Player setCell s).1 =
              Some (Z.of_nat (length (deref (store s) l0)) * 32,
                    Z.of_nat (length g) * 32)
        end
  end.
Proof.
  intros Hdata.
  destruct (build_levels_mirror _ _ Hdata)
    as (h' & ls & Hb & _ & _ & Hlen & Hmirror & _).
  rewrite (setup_eq new_Player setCell s h' ls Hb).
  destruct (levelsData s) as [|g data] eqn:Hraw.
  - destruct ls; [|done]. done.
  - destruct ls as [|L ls]; [done|].
    destruct (Hmirror 0%nat g L eq_refl eq_refl)
      as [(Hts & _ & _ & Hglen & Hlens & Hfs & _) _].
    rewrite (loadLevel_eq _ (Int 0) L (new_Player TS)) by done.
    split; [by destruct (grid L)|].
    exists (start L). split; [done|]. split.
    { by destruct (grid L), (start L). }
    destruct g as [|l0 g]; destruct (grid L) as [|l gL] eqn:HgL;
      try done; simpl.
    rewrite Hts. unfold rows. rewrite HgL.
    rewrite (Hlens 0%nat l l0) by done. by rewrite Hglen.
Qed.
End sketch_dynamics.

(** [setup] on the demo sketch activates level 0. *)
Lemma setup_outcome_witness :
  Forall (allocated (store demo_sketch)) (levelsData demo_sketch) ∧
  li (setup demo_new_Player demo_setCell demo_sketch).1 = Int 0.
Proof.
  assert (Hdata : Forall (allocated (store demo_sketch)) (levelsData demo_sketch)).
  { repeat constructor; intros l Hl; apply elem_of_dom;
      repeat (apply elem_of_cons in Hl as [->|Hl]; [by vm_compute; eexists|]);
      by apply elem_of_nil in Hl. }
  split; [exact Hdata|].
  exact (proj1 (setup_outcome demo_new_Player demo_setCell demo_sketch Hdata)).
Defined.

Section sketch_cycle.
Context {Player : Type}.
Context (new_Player : Z → Player) (setCell : Player → Z → Z → Player).

Implicit Types s : @Sketch Player.

Lemma nextLevel_li s (i : Z) :
  li s = Int i → 0 ≤ i → (0 < length (levels s))%nat →
  li (nextLevel setCell s).1 = Int ((i + 1) `mod` Z.of_nat (length (levels s))) ∧
  levels (nextLevel setCell s).1 = levels s.
Proof.
  intros Hli Hi Hlen. unfold nextLevel.
  destruct (loadLevel_frame setCell
    (num_rem (num_add (li s) (Int 1)) (of_nat (length (levels s)))) s)
    as (_ & _ & -> & ->).
  split; [|done]. rewrite Hli. simpl. unfold of_nat.
  rewrite decide_False by lia. by rewrite Z.rem_mod_nonneg by lia.
Qed.

Lemma next_times_li s (i : Z) (k : nat) :
  li s = Int i → 0 ≤ i < Z.of_nat (length (levels s)) →
  li (next_times setCell k s)
    = Int ((i + Z.of_nat k) `mod` Z.of_nat (length (levels s))) ∧
  levels (next_times setCell k s) = levels s.
Proof.
  intros Hli Hi. induction k as [|k [IHli IHlevels]].
  - simpl. rewrite Z.add_0_r, Z.mod_small by done. done.
  - cbn [next_times].
    pose proof (Z.mod_pos_bound (i + Z.of_nat k)
                  (Z.of_nat (length (levels s))) ltac:(lia)) as Hbound.
    destruct (nextLevel_li _ _ IHli) as [Hnext Hsame].
    { lia. } { rewrite IHlevels. lia. }
    rewrite Hnext, Hsame, IHlevels. split; [|done]. f_equal.
    rewrite Zplus_mod_idemp_l. f_equal. lia.
Qed.

(** X15. [nextLevel] cycles through the levels.  From a valid index [i]
    among [n] levels, [k] calls lead to index [(i + k) mod n], whether
    or not the calls throw on the way; [n] calls lead back to [i], and
    every level is reached within [n - 1] calls. *)
Theorem nextLevel_cycle s (i : Z) :
  li s = Int i → 0 ≤ i < Z.of_nat (length (levels s)) →
  (∀ k, li (next_times setCell k s)
        = Int ((i + Z.of_nat k) `mod` Z.of_nat (length (levels s)))) ∧
  li (next_times setCell (length (levels s)) s) = Int i ∧
  ∀ j, 0 ≤ j < Z.of_nat (length (levels s)) →
       ∃ k, (k < length (levels s))%nat ∧ li (next_times setCell k s) = Int j.
Proof.
  intros Hli Hi.
  assert (Hk : ∀ k, li (next_times setCell k s)
             = Int ((i + Z.of_nat k) `mod` Z.of_nat (length (levels s)))).
  { intros k. by apply next_times_li. }
  split; [done|]. split.
  - rewrite Hk. f_equal.
    rewrite <-(Z.mul_1_l (Z.of_nat (length (levels s)))) at 1.
    rewrite Z.mod_add by lia. by apply Z.mod_small.
  - intros j Hj.
    pose proof (Z.mod_pos_bound (j - i) (Z.of_nat (length (levels s)))
                  ltac:(lia)) as Hbound.
    exists (Z.to_nat ((j - i) `mod` Z.of_nat (length (levels s)))).
    split; [lia|]. rewrite Hk. f_equal. rewrite Z2Nat.id by lia.
    rewrite Zplus_mod_idemp_r.
    replace (i + (j - i)) with j by lia. by apply Z.mod_small.
Qed.

(** X16. Without levels [nextLevel] cannot recover: whatever the index
    was, it becomes [NaN] and the call throws a TypeError, leaving
    player and canvas alone; a further call does the same. *)
Theorem nextLevel_without_levels s :
  levels s = [] →
  li (nextLevel setCell s).1 = NaN ∧
  (nextLevel setCell s).2 = Throw TypeError ∧
  player (nextLevel setCell s).1 = player s ∧
  canvas (nextLevel setCell s).1 = canvas s ∧
  levels (nextLevel setCell s).1 = [] ∧
  li (nextLevel setCell (nextLevel setCell s).1).1 = NaN.
Proof.
  intros Hlevels.
  assert (Hnext : ∀ s', levels s' = [] →
    nextLevel setCell s' = (set_li NaN s', Throw TypeError)).
  { intros s' Hs'. unfold nextLevel. rewrite Hs'.
    assert (Hnan : num_rem (num_add (li s') (Int 1)) (of_nat (length (@nil Level)))
                   = NaN) by by destruct (li s').
    rewrite Hnan. unfold loadLevel. simpl. by rewrite ?Hs'. }
  rewrite (Hnext s Hlevels). cbn [fst snd].
  rewrite (Hnext (set_li NaN s) Hlevels). done.
Qed.

(** ** Mouse presses *)

(** X17. [mousePressed] throws a TypeError, changing nothing, when the
    active index names no level.  Otherwise it returns normally and
    replaces the active level by what [handleClick] makes of it: the
    store, the index, the player, the canvas and every other level are
    as before, and a second press at the same pixel restores the sketch
    it started from. *)
Theorem mousePressed_changes_active_level s (mouseX mouseY : Z) :
  match index (levels s) (li s) with
  | None => mousePressed mouseX mouseY s = (s, Throw TypeError)
  | Some level =>
      ∃ level',
        handleClick (store s) level mouseX mouseY = Normal level' ∧
        (mousePressed mouseX mouseY s).2 = Normal () ∧
        store (mousePressed mouseX mouseY s).1 = store s ∧
        li (mousePressed mouseX mouseY s).1 = li s ∧
        player (mousePressed mouseX mouseY s).1 = player s ∧
        canvas (mousePressed mouseX mouseY s).1 = canvas s ∧
        index (levels (mousePressed mouseX mouseY s).1) (li s) = Some level' ∧
        length (levels (mousePressed mouseX mouseY s).1) = length (levels s) ∧
        (∀ j : nat, of_nat j ≠ li s →
           levels (mousePressed mouseX mouseY s).1 !! j = levels s !! j) ∧
        (mousePressed mouseX mouseY (mousePressed mouseX mouseY s).1).1 = s
  end.
Proof.
  destruct (index (levels s) (li s)) as [level|] eqn:Hidx;
    [|unfold mousePressed; by rewrite Hidx].
  destruct (handleClick_Normal (store s) level mouseX mouseY) as [level' Hc].
  exists level'. split; [done|].
  destruct (li s) as [i| | |] eqn:Hli; try done.
  apply index_Int_Some in Hidx as [Hi Hidx].
  assert (Hlt : (Z.to_nat i < length (levels s))%nat)
    by by apply lookup_lt_Some in Hidx.
  assert (Hfirst : mousePressed mouseX mouseY s =
    (set_levels (store s) (<[Z.to_nat i := level']> (levels s)) s, Normal ())).
  { unfold mousePressed. rewrite Hli.
    assert (Hidx' : index (levels s) (Int i) = Some level)
      by by apply index_Int_Some.
    by rewrite Hidx', Hc. }
  rewrite Hfirst. simpl. do 5 (split; [done|]).
  assert (Hnew : index (<[Z.to_nat i := level']> (levels s)) (Int i)
                 = Some level').
  { apply index_Int_Some. split; [done|]. by apply list_lookup_insert_eq. }
  split; [done|]. split; [by rewrite length_insert|]. split.
  - intros j Hj. apply list_lookup_insert_ne. intros <-. apply Hj.
    unfold of_nat. f_equal. lia.
  - unfold mousePressed. simpl. rewrite Hli, Hnew.
    rewrite (handleClick_involutive _ _ _ _ _ Hc).
    rewrite list_insert_insert_eq, list_insert_id by done.
    destruct s. simpl in *. by subst.
Qed.
End sketch_cycle.

(** Two levels, the last one active: two calls of [nextLevel] come back
    to it. *)
Lemma nextLevel_cycle_witness :
  li demo_last_level = Int 1 ∧
  0 ≤ 1 < Z.of_nat (length (levels demo_last_level)) ∧
  li (next_times demo_setCell 2 demo_last_level) = Int 1.
Proof.
  assert (Hvalid : 0 ≤ 1 < Z.of_nat (length (levels demo_last_level)))
    by (vm_compute; split; [discriminate|reflexivity]).
  split; [reflexivity|]. split; [exact Hvalid|].
  exact (proj1 (proj2 (nextLevel_cycle demo_setCell demo_last_level 1
                         eq_refl Hvalid))).
Defined.

Lemma nextLevel_without_levels_witness :
  levels no_levels_sketch = [] ∧
  li (nextLevel demo_setCell no_levels_sketch).1 = NaN.
Proof.
  split; [reflexivity|].
  exact (proj1 (nextLevel_without_levels demo_setCell no_levels_sketch eq_refl)).
Defined.

(** ** The running sketch *)

Section sketch_running.
Context {Player : Type}.
Context (new_Player : Z → Player) (setCell : Player → Z → Z → Player).

Implicit Types s : @Sketch Player.

Lemma loadLevel_player s idx :
  is_Some (player s) → is_Some (player (loadLevel setCell idx s).1).
Proof.
  intros [p Hp]. unfold loadLevel. simpl. rewrite Hp.
  destruct (index (levels s) idx) as [level|]; simpl; [|by rewrite Hp].
  destruct (start level); simpl;
    destruct (pixelWidth (store s) level); simpl; eauto.
Qed.

Lemma mousePressed_frame s mouseX mouseY :
  li (mousePressed mouseX mouseY s).1 = li s ∧
  player (mousePressed mouseX mouseY s).1 = player s ∧
  length (levels (mousePressed mouseX mouseY s).1) = length (levels s).
Proof.
  unfold mousePressed.
  destruct (index (levels s) (li s)) as [level|]; [|done].
  destruct (handleClick (store s) level mouseX mouseY); [|done].
  simpl. split; [done|]. split; [done|].
  destruct (li s); by rewrite ?length_insert.
Qed.

Lemma running_valid_index s :
  running new_Player setCell s →
  is_Some (player s) ∧
  (levels s ≠ [] →
   ∃ i, li s = Int i ∧ 0 ≤ i < Z.of_nat (length (levels s))).
Proof.
  induction 1 as [s Hdata|s x y _ [IHp IHi]|s _ [IHp IHi]].
  - destruct (build_levels_spec _ _ Hdata) as (h' & ls & Hb & _).
    rewrite (setup_eq new_Player setCell s h' ls Hb).
    destruct (loadLevel_frame setCell (Int 0)
                (set_player (new_Player TS) (set_levels h' ls s)))
      as (_ & _ & Hlevels & Hli).
    split; [apply loadLevel_player; by eexists|].
    rewrite Hlevels, Hli. simpl. intros Hne. exists 0. split; [done|].
    destruct ls; [done|]. simpl. lia.
  - destruct (mousePressed_frame s x y) as (Hli & Hp & Hlen).
    rewrite Hli, Hp, Hlen. split; [done|]. intros Hne. apply IHi.
    intros Hnil. apply Hne. apply nil_length_inv. by rewrite Hlen, Hnil.
  - split; [by apply loadLevel_player|]. intros Hne.
    destruct (loadLevel_frame setCell
      (num_rem (num_add (li s) (Int 1)) (of_nat (length (levels s)))) s)
      as (_ & _ & Hlevels & _).
    unfold nextLevel in Hne. rewrite Hlevels in Hne.
    destruct (IHi Hne) as (i & Hli & Hi).
    destruct (nextLevel_li setCell s i Hli) as [Hnext Hsame]; [lia..|].
    rewrite Hnext, Hsame. eexists. split; [done|].
    apply Z.mod_pos_bound. lia.
Qed.

(** X18. Once [setup] has run on loaded data with at least one raw grid,
    the active index always names a level and a player exists, through
    any sequence of mouse presses and level changes; in every such state
    a mouse press returns normally. *)
Theorem running_presses_never_throw s :
  running new_Player setCell s → levels s ≠ [] →
  is_Some (index (levels s) (li s)) ∧ is_Some (player s) ∧
  ∀ mouseX mouseY, (mousePressed mouseX mouseY s).2 = Normal ().
Proof.
  intros Hrun Hne. destruct (running_valid_index s Hrun) as [Hp Hi].
  destruct (Hi Hne) as (i & Hli & Hvalid).
  assert (Hidx : is_Some (index (levels s) (li s)))
    by (rewrite Hli; by apply index_Int_lt).
  split; [done|]. split; [done|]. intros x y.
  destruct Hidx as [level Hlevel]. unfold mousePressed. rewrite Hlevel.
  by destruct (handleClick_Normal (store s) level x y) as [level' ->].
Qed.

(** X19. In every such state the [draw] function of the sketch returns
    normally: it paints the background, then the tiles of the active
    level and of no other, then the heads-up text, whose level number is
    the active index plus one and lies between 1 and the number of
    levels. *)
Theorem running_draw s :
  running new_Player setCell s → levels s ≠ [] →
  ∃ (i : Z) (level : Level),
    li s = Int i ∧ levels s !! Z.to_nat i = Some level ∧
    1 ≤ i + 1 ≤ Z.of_nat (length (levels s)) ∧
    sketch_draw s =
      (Background 240 :: frame (store s) level ++
         [Fill 0;
          Text ("Level " +:+ pretty (i + 1) +:+ "/" +:+
                pretty (Z.of_nat (length (levels s))) +:+
                " —  Click to paint") 10 16],
       Normal ()).
Proof.
  intros Hrun Hne. destruct (running_valid_index s Hrun) as [_ Hi].
  destruct (Hi Hne) as (i & Hli & Hvalid).
  destruct (index_Int_lt (levels s) i Hvalid) as [level Hlevel].
  exists i, level. split; [done|].
  split; [by apply index_Int_Some in Hlevel as [_ ?]|]. split; [lia|].
  unfold sketch_draw, drawHUD. rewrite Hli, Hlevel, draw_eq. done.
Qed.

(** X20. Without levels every frame and every mouse press throws: [draw]
    paints the background and then throws a TypeError, [mousePressed]
    throws at once and changes nothing. *)
Theorem no_levels_handlers_throw s :
  levels s = [] →
  sketch_draw s = ([Background 240], Throw TypeError) ∧
  ∀ mouseX mouseY, mousePressed mouseX mouseY s = (s, Throw TypeError).
Proof.
  intros Hnil.
  assert (Hidx : index (levels s) (li s) = None).
  { rewrite Hnil. unfold index. destruct (li s); [|done..].
    by case_decide. }
  unfold sketch_draw, mousePressed. by rewrite Hidx.
Qed.
End sketch_running.

Lemma demo_running :
  running demo_new_Player demo_setCell
    (mousePressed 40 70 (setup demo_new_Player demo_setCell demo_sketch).1).1.
Proof.
  apply run_click, run_setup.
  repeat constructor; intros l Hl; apply elem_of_dom;
    repeat (apply elem_of_cons in Hl as [->|Hl]; [by vm_compute; eexists|]);
    by apply elem_of_nil in Hl.
Qed.

(** The demo sketch after [setup] and one press. *)
Lemma running_presses_never_throw_witness :
  (mousePressed 5 5
     (mousePressed 40 70
        (setup demo_new_Player demo_setCell demo_sketch).1).1).2 = Normal ().
Proof.
  refine (proj2 (proj2 (running_presses_never_throw demo_new_Player
                          demo_setCell _ demo_running _)) 5 5).
  vm_compute. discriminate.
Defined.

Lemma running_draw_witness :
  (sketch_draw
     (mousePressed 40 70
        (setup demo_new_Player demo_setCell demo_sketch).1).1).2 = Normal ().
Proof.
  destruct (running_draw demo_new_Player demo_setCell _ demo_running)
    as (i & level & _ & _ & _ & Hdraw).
  - vm_compute. discriminate.
  - by rewrite Hdraw.
Defined.

Lemma no_levels_handlers_throw_witness :
  levels no_levels_sketch = [] ∧
  sketch_draw no_levels_sketch = ([Background 240], Throw TypeError).
Proof.
  split; [reflexivity|].
  exact (proj1 (no_levels_handlers_throw no_levels_sketch eq_refl)).
Defined.
